(** * quickpic: the upload hooks and the two PNG export pipelines

    A shallow embedding of
    - [use-async-memo]     (hook [useAsyncMemo]),
    - [use-file-uploader]  (hook [useFileUploader], the upload session),
    - [rounded-tool.tsx]   (the rounded-border export),
    - [svg-tool.tsx]       (the SVG rasterising export),
    followed by the properties of the specification, each settled on the
    embedding.

    Conventions.  A React component is a state machine: its [useState] cells
    are the fields of a record, an event handler, a render with its commit
    phase, or the settlement of a promise is one step.  JavaScript objects are
    compared by reference ([Object.is]); a reference is an [Ident].  JavaScript
    numbers are rationals: a coordinate given to the canvas is used as it
    is, and the product of two numbers is rounded to the nearest double, as
    [*] does; pixel dimensions reported by the image decoder are integers. *)

From Stdlib Require Import List Bool Arith ZArith QArith Qround Qabs Qpower.
From Stdlib Require Import String Ascii Lia Lqa.
Import ListNotations.
Close Scope Q_scope.
Open Scope nat_scope.

Set Implicit Arguments.

(** References of JavaScript objects: two objects are [Object.is]-equal
    exactly when their references are equal. *)
Definition Ident := nat.

(* ================================================================== *)
(** * useAsyncMemo                                                      *)
(* ================================================================== *)

Module UseAsyncMemo.

Section Hook.
(** [V]: the values [T | L] held by the hook; [E]: rejection reasons;
    [P]: what the hook knows about the promise [factory()] returned;
    [W]: the part of the world the synchronous prefix of [factory] acts
    on. *)
Context {V E P W : Type}.

(** The arguments of one call [useAsyncMemo(factory, deps, loadingState,
    errorState?)], each with the reference React compares. *)
Record Args := {
  factory_id : Ident;
  factory : W -> W * P;
  deps_id : Ident;
  loadingState_id : Ident;
  loadingState : V;
  errorState : option (Ident * (E -> V))
}.

(** Reference of the error handler after line 11: the supplied one, or
    [defaultErrorState], which [useCallback] renews exactly when
    [loadingState] is another object. *)
Inductive HandlerRef :=
| Supplied (i : Ident)
| DefaultFor (loading : Ident).

Definition HandlerRef_eqb (a b : HandlerRef) : bool :=
  match a, b with
  | Supplied i, Supplied j => Nat.eqb i j
  | DefaultFor i, DefaultFor j => Nat.eqb i j
  | _, _ => false
  end.

(** [const defaultErrorState = useCallback(() => loadingState, ...);
     if (!errorState) errorState = defaultErrorState;] *)
Definition effective_errorState (a : Args) : E -> V :=
  match errorState a with
  | Some (_, onError) => onError
  | None => fun _ => loadingState a
  end.

Definition errorState_ref (a : Args) : HandlerRef :=
  match errorState a with
  | Some (i, _) => Supplied i
  | None => DefaultFor (loadingState_id a)
  end.

(** The dependency array of the effect:
    [[factory, loadingState, errorState, deps]].  Note that [deps] is one
    element of it (the caller's array itself, not its elements). *)
Record Signature := {
  sig_factory : Ident;
  sig_loadingState : Ident;
  sig_errorState : HandlerRef;
  sig_deps : Ident
}.

Definition signature (a : Args) : Signature :=
  {| sig_factory := factory_id a;
     sig_loadingState := loadingState_id a;
     sig_errorState := errorState_ref a;
     sig_deps := deps_id a |}.

(** React's [areHookInputsEqual]: element-wise [Object.is]. *)
Definition same_signature (x y : Signature) : bool :=
  Nat.eqb (sig_factory x) (sig_factory y)
  && Nat.eqb (sig_loadingState x) (sig_loadingState y)
  && HandlerRef_eqb (sig_errorState x) (sig_errorState y)
  && Nat.eqb (sig_deps x) (sig_deps y).

Definition deps_changed (last : option Signature) (now : Signature) : bool :=
  match last with
  | None => true
  | Some old => negb (same_signature old now)
  end.

(** An outstanding call of [factory]: the promise and the two callbacks
    given to [.then], of which only the rejection handler depends on the
    render that issued the call. *)
Record Call := {
  call_id : nat;
  call_promise : P;
  call_onError : E -> V
}.

(** The hook's memory: the [useState] cell, the dependency array of the
    last commit, the promises not yet settled, and the number of times
    [factory] has been invoked. *)
Record Hook := {
  result : V;
  last_deps : option Signature;
  pending : list Call;
  issued : nat
}.

(** [useState<T | L>(loadingState)] at the first render. *)
Definition mount (initial : V) : Hook :=
  {| result := initial; last_deps := None; pending := []; issued := 0 |}.

(** The body of the effect, lines 14-23. *)
Definition effect (a : Args) (hw : Hook * W) : Hook * W :=
  let (h, w) := hw in
  let (w', p) := factory a w in
  ({| result := loadingState a;
      last_deps := Some (signature a);
      pending := pending h ++
                 [{| call_id := issued h;
                     call_promise := p;
                     call_onError := effective_errorState a |}];
      issued := S (issued h) |}, w').

(** The commit phase of a render with arguments [a]. *)
Definition commit (a : Args) (hw : Hook * W) : Hook * W :=
  if deps_changed (last_deps (fst hw)) (signature a)
  then effect a hw
  else hw.

(** How a promise ends. *)
Inductive Settlement :=
| Fulfilled (value : V)
| Rejected (error : E).

(** The two callbacks of [.then], lines 17-22: both call [setResult]
    and nothing else. *)
Definition on_settled (c : Call) (o : Settlement) : V :=
  match o with
  | Fulfilled value => value
  | Rejected error => call_onError c error
  end.

Definition is_call (k : nat) (c : Call) : bool := Nat.eqb (call_id c) k.

(** Promise [k] settles. *)
Definition settle (k : nat) (o : Settlement) (h : Hook) : option Hook :=
  match find (is_call k) (pending h) with
  | None => None
  | Some c =>
      Some {| result := on_settled c o;
              last_deps := last_deps h;
              pending := filter (fun c' => negb (is_call k c')) (pending h);
              issued := issued h |}
  end.

(** Call identifiers are the values [issued] had when they were handed
    out, so no two outstanding calls share one. *)
Definition well_numbered (h : Hook) : Prop :=
  NoDup (map call_id (pending h)) /\
  Forall (fun c => call_id c < issued h) (pending h).

End Hook.

Arguments Args : clear implicits.
Arguments Call : clear implicits.
Arguments Hook : clear implicits.
Arguments Settlement : clear implicits.

End UseAsyncMemo.

(* ================================================================== *)
(** * useFileUploader: the upload session                               *)
(* ================================================================== *)

Module UploadSession.
Import UseAsyncMemo.

(** A [File]: its name, its MIME type, and what the image decoder makes of
    its content: [Some (naturalWidth, naturalHeight)], or [None] when the
    content does not decode, in which case [img.onload] never fires. *)
Record File := {
  file_name : string;
  file_type : string;
  file_natural_size : option (Z * Z)
}.

(** Object URLs.  [URL.createObjectURL] never returns the same URL twice;
    the store counts the URLs handed out and logs the calls of
    [URL.revokeObjectURL]. *)
Definition Url := nat.

Record UrlStore := {
  next_url : Url;
  revoked : list Url
}.

Definition createObjectURL (w : UrlStore) : UrlStore * Url :=
  ({| next_url := S (next_url w); revoked := revoked w |}, next_url w).

Definition revokeObjectURL (u : Url) (w : UrlStore) : UrlStore :=
  {| next_url := next_url w; revoked := revoked w ++ [u] |}.

Record Metadata := {
  width : Z;
  height : Z;
  name : string
}.

(** The object the producer returns and the hook reports. *)
Record Derived := {
  imageBlobUrl : option Url;
  imageMetadata : option Metadata
}.

(** [{ imageBlobUrl: null, imageMetadata: null }] *)
Definition nothing : Derived :=
  {| imageBlobUrl := None; imageMetadata := None |}.

(** The promise returned by the producer of lines 54-62: already resolved
    (no blob), or waiting for [getImageDimensions] on a URL it allocated. *)
Inductive Producer :=
| Immediate (value : Derived)
| Decoding (f : File) (u : Url).

(** The synchronous prefix of the producer, for the [imageBlob] its closure
    captured. *)
Definition producer (blob : option File) (w : UrlStore) : UrlStore * Producer :=
  match blob with
  | None => (w, Immediate nothing)
  | Some f => let (w', u) := createObjectURL w in (w', Decoding f u)
  end.

(** [{ imageBlobUrl, imageMetadata: { ...dimensions, name: imageBlob.name } }] *)
Definition derived_of (f : File) (u : Url) (size : Z * Z) : Derived :=
  {| imageBlobUrl := Some u;
     imageMetadata := Some {| width := fst size;
                              height := snd size;
                              name := file_name f |} |}.

(** The value the promise resolves with, if it ever does:
    [getImageDimensions] has no [onerror], so an undecodable blob leaves the
    promise pending for ever.  The producer never rejects. *)
Definition resolution (p : Producer) : option Derived :=
  match p with
  | Immediate value => Some value
  | Decoding f u => option_map (derived_of f u) (file_natural_size f)
  end.

Definition NoError := Empty_set.

Definition MemoArgs := Args Derived NoError Producer UrlStore.
Definition Memo := Hook Derived NoError Producer.

(** The component calling [useFileUploader]. *)
Record Session := {
  mounted : bool;
  (** [useState<File | null>(null)] *)
  imageBlob : option File;
  (** the state of [useAsyncMemo] *)
  memo : Memo;
  (** the [imageBlobUrl] of the last commit, which the registered cleanup
      of lines 68-73 holds; [None] before the first commit *)
  preview : option (option Url);
  urls : UrlStore;
  (** the next unused object reference *)
  next_ident : Ident
}.

Definition initial : Session :=
  {| mounted := true;
     imageBlob := None;
     memo := mount nothing;
     preview := None;
     urls := {| next_url := 0; revoked := [] |};
     next_ident := 0 |}.

(** The arguments [useFileUploader] passes at a render: the arrow function,
    the array [[imageBlob]] and the object literal are all created anew by
    the render, and no [errorState] is given. *)
Definition memo_args (s : Session) : MemoArgs :=
  {| factory_id := next_ident s;
     factory := producer (imageBlob s);
     deps_id := S (next_ident s);
     loadingState_id := S (S (next_ident s));
     loadingState := nothing;
     errorState := None |}.

Definition Url_eqb (a b : option Url) : bool :=
  match a, b with
  | None, None => true
  | Some x, Some y => Nat.eqb x y
  | _, _ => false
  end.

(** The cleanup of lines 69-71 for the URL it captured. *)
Definition cleanup (captured : option Url) (w : UrlStore) : UrlStore :=
  match captured with
  | Some u => revokeObjectURL u w
  | None => w
  end.

(** The cleanups a commit runs for the effect of lines 68-73: the previous
    one, when [imageBlobUrl] differs from the one it captured. *)
Definition run_cleanup (previous : option (option Url)) (now : option Url)
                       (w : UrlStore) : UrlStore :=
  match previous with
  | Some captured => if Url_eqb captured now then w else cleanup captured w
  | None => w
  end.

(** The commit of a render has two phases.  First the cleanups: the one
    registered for lines 68-73 runs when the [imageBlobUrl] the render got
    from [useAsyncMemo] differs from the one it captured, and the effect is
    registered anew with the current value. *)
Definition commit_cleanups (s : Session) : Session :=
  let shown := imageBlobUrl (result (memo s)) in
  {| mounted := mounted s;
     imageBlob := imageBlob s;
     memo := memo s;
     preview := Some shown;
     urls := run_cleanup (preview s) shown (urls s);
     next_ident := next_ident s |}.

(** Then the effect bodies: the effect of [useAsyncMemo], with the
    arguments of this render. *)
Definition commit_effects (s : Session) : Session :=
  let (m, w) := commit (memo_args s) (memo s, urls s) in
  {| mounted := mounted s;
     imageBlob := imageBlob s;
     memo := m;
     preview := preview s;
     urls := w;
     next_ident := 3 + next_ident s |}.

(** One render and its commit. *)
Definition render (s : Session) : Session :=
  commit_effects (commit_cleanups s).

Definition setImageBlob (blob : option File) (s : Session) : Session :=
  {| mounted := mounted s;
     imageBlob := blob;
     memo := memo s;
     preview := preview s;
     urls := urls s;
     next_ident := next_ident s |}.

(** Promise [k] resolves and its callback calls [setResult]. *)
Definition resolve (k : nat) (s : Session) : option Session :=
  match find (is_call k) (pending (memo s)) with
  | None => None
  | Some c =>
      match resolution (call_promise c) with
      | None => None
      | Some value =>
          match settle k (Fulfilled value) (memo s) with
          | None => None
          | Some m =>
              Some {| mounted := mounted s;
                      imageBlob := imageBlob s;
                      memo := m;
                      preview := preview s;
                      urls := urls s;
                      next_ident := next_ident s |}
          end
      end
  end.

(** The component is removed: the registered cleanup runs, and the state
    cells are gone. *)
Definition unmount (s : Session) : Session :=
  {| mounted := false;
     imageBlob := None;
     memo := mount nothing;
     preview := None;
     urls := match preview s with
             | Some captured => cleanup captured (urls s)
             | None => urls s
             end;
     next_ident := next_ident s |}.

(** What can happen to a session.  [Replace] is [handleFileUpload],
    [handleFileUploadEvent] with a file, or a paste; a render may come at
    any time (after a [setState], or because the parent renders). *)
Inductive Event :=
| Replace (f : File)
| Cancel
| Render
| Resolve (k : nat)
| Unmount.

Definition step (e : Event) (s : Session) : option Session :=
  if mounted s then
    match e with
    | Replace f => Some (setImageBlob (Some f) s)
    | Cancel => Some (setImageBlob None s)
    | Render => Some (render s)
    | Resolve k => resolve k s
    | Unmount => Some (unmount s)
    end
  else None.

Fixpoint run (trace : list Event) (s : Session) : option Session :=
  match trace with
  | [] => Some s
  | e :: rest =>
      match step e s with
      | Some s' => run rest s'
      | None => None
      end
  end.

Definition reachable (s : Session) : Prop :=
  exists trace, run trace initial = Some s.

(** What the hook returns to the tool at a render in state [s]. *)
Definition exposed (s : Session) : Derived := result (memo s).

(** The object URLs held by outstanding producers. *)
Definition producer_url (p : Producer) : option Url :=
  match p with
  | Immediate _ => None
  | Decoding _ u => Some u
  end.

Fixpoint pending_urls (calls : list (Call Derived NoError Producer)) : list Url :=
  match calls with
  | [] => []
  | c :: rest =>
      match producer_url (call_promise c) with
      | Some u => u :: pending_urls rest
      | None => pending_urls rest
      end
  end.

End UploadSession.

(* ================================================================== *)
(** * JavaScript numbers                                                *)
(* ================================================================== *)

(** The values of type [number] the pipelines compute with are doubles.
    A finite double is a rational [m * 2^p] with [|m| < 2^53] and
    [-1074 <= p]; a rational of [2^1024] or more stands for [Infinity]. *)
Module Number.
Local Open Scope Q_scope.

(** The integer nearest to [q]; of two equally near, the even one. *)
Definition nearest_even (q : Q) : Z :=
  let f := Qfloor q in
  match Qcompare (q - inject_Z f) (1 # 2) with
  | Lt => f
  | Gt => (f + 1)%Z
  | Eq => if Z.even f then f else (f + 1)%Z
  end.

(** For [q > 0], the exponent [e] with [2^e <= q < 2^(e+1)]. *)
Definition binade (q : Q) : Z :=
  let e := (Z.log2 (Qnum q) - Z.log2 (Zpos (Qden q)))%Z in
  if Qle_bool (2 ^ e) q then e else (e - 1)%Z.

(** The double nearest to [x] (round to nearest, ties to even), with 53
    bits of precision above [2^-1022] and steps of [2^-1074] below. *)
Definition to_double (x : Q) : Q :=
  let q := Qred x in
  if Qeq_bool q 0 then 0
  else
    let a := Qabs q in
    let p := Z.max (binade a - 52) (-1074) in
    let m := nearest_even (a / 2 ^ p) in
    Qred ((if Qle_bool 0 q then 1 else -1) * inject_Z m * 2 ^ p).

(** [x * y] and [x - y] on numbers. *)
Definition times (x y : Q) : Q := to_double (to_double x * to_double y).

Definition minus (x y : Q) : Q := to_double (to_double x - to_double y).

(** [Infinity], which a product too large becomes. *)
Definition infinite (v : Q) : bool := Qle_bool (2 ^ 1024) v.

(** For a double [v > 0], the exponent [k] with [10^k <= v < 10^(k+1)]. *)
Definition decade (v : Q) : Z :=
  let k := ((binade v * 30103) / 100000)%Z in
  if Qle_bool (10 ^ (k + 1)) v then (k + 1)%Z
  else if Qle_bool (10 ^ k) v then k
  else (k - 1)%Z.

(** [String(v)] is the shortest decimal text that reads back as [v].  It
    has an exponent when that text is below [0.000001] or not below
    [1e21]; [1e21] is a double, and [0.000001] is the text of the double
    nearest to it. *)
Definition exponent_notation (v : Q) : bool :=
  negb (Qle_bool (to_double (1 # 1000000)) v) || Qle_bool (10 ^ 21) v.

(** The first digit of that text for [v > 0]: the first digit of [v],
    unless the next number of one digit in the decade of [v] reads back as
    [v] too, which is then the text. *)
Definition leading_digit (v : Q) : Z :=
  let k := decade v in
  let d := Qfloor (v / 10 ^ k) in
  if Qeq_bool (to_double (inject_Z (d + 1) * 10 ^ k)) v
  then (if (d + 1 =? 10)%Z then 1%Z else (d + 1)%Z)
  else d.

End Number.

(* ================================================================== *)
(** * The 2D canvas the export pipelines draw into                      *)
(* ================================================================== *)

Module Canvas.
Local Open Scope Z_scope.

(** An RGBA pixel, each channel in 0..255. *)
Record Pixel := {
  red : Z;
  green : Z;
  blue : Z;
  alpha : Z
}.

Definition transparent_black : Pixel :=
  {| red := 0; green := 0; blue := 0; alpha := 0 |}.

(** [type BackgroundOption = "white" | "black" | "transparent"] *)
Inductive BackgroundOption :=
| white
| black
| transparent.

(** The CSS colours these three keywords name, as assigned to
    [ctx.fillStyle]. *)
Definition css_color (c : BackgroundOption) : Pixel :=
  match c with
  | white => {| red := 255; green := 255; blue := 255; alpha := 255 |}
  | black => {| red := 0; green := 0; blue := 0; alpha := 255 |}
  | transparent => transparent_black
  end.

(** A decoded image: its natural size, which is a size a canvas can have,
    and a handle on its content. *)
Record Image := {
  naturalWidth : Z;
  naturalHeight : Z;
  content : nat
}.

(** The path-building calls of [CanvasRenderingContext2D]. *)
Inductive PathCmd :=
| MoveTo (x y : Q)
| LineTo (x y : Q)
| QuadraticCurveTo (cpx cpy x y : Q)
| ClosePath.

(** The calls the two pipelines make on the context.  Rectangles only ever
    get integer corners there (image and canvas sizes); path points and the
    destination size of [drawImage] are arbitrary numbers. *)
Inductive Op :=
| Save
| Restore
| ClearRect (x y w h : Z)
| SetFillStyle (c : BackgroundOption)
| FillRect (x y w h : Z)
| BeginPath
| Trace (c : PathCmd)
| Clip
| DrawImage (img : Image) (dx dy dw dh : Q)
| DrawImageAt (img : Image) (dx dy : Q).

(** How much of a pixel the region enclosed by a path covers: nothing of
    it, all of it, or a share in between, as for the pixels the edge of the
    region runs through, which the browser antialiases. *)
Inductive Coverage :=
| Outside
| Partly (share : Q)
| Whole.

(** What the browser decides and the source does not: how a source colour
    is composited over a destination colour ([source-over]), how much of
    each pixel the region enclosed by a path covers, the colour of a pixel
    covered in part ([blend share painted kept]), and the colour that
    drawing an image into a destination rectangle contributes to a
    pixel. *)
Record Host := {
  source_over : Pixel -> Pixel -> Pixel;
  coverage : list PathCmd -> Z -> Z -> Coverage;
  blend : Q -> Pixel -> Pixel -> Pixel;
  sample : Image -> Q -> Q -> Q -> Q -> Z -> Z -> Pixel
}.

(** The two laws of [source-over] the pipelines rely on: an opaque source
    replaces the destination, a source of alpha 0 leaves it. *)
Definition composites (host : Host) : Prop :=
  (forall s d, alpha s = 255 -> source_over host s d = s) /\
  (forall s d, alpha s = 0 -> source_over host s d = d).

(** The drawing state [save] and [restore] keep, the current path, and
    the bitmap. *)
Record Context2D := {
  canvas_width : Z;
  canvas_height : Z;
  pixels : Z -> Z -> Pixel;
  fillStyle : Pixel;
  path : list PathCmd;
  clip_region : list (list PathCmd);
  stack : list (Pixel * list (list PathCmd))
}.

Definition in_rect (x y w h i j : Z) : bool :=
  (x <=? i) && (i <? x + w) && (y <=? j) && (j <? y + h).

Definition in_canvas (ctx : Context2D) (i j : Z) : bool :=
  in_rect 0 0 (canvas_width ctx) (canvas_height ctx) i j.

(** What painting [painted] on a pixel holding [kept] leaves there when
    the clip covers the pixel as [c] says. *)
Definition edge (host : Host) (c : Coverage) (painted kept : Pixel) : Pixel :=
  match c with
  | Outside => kept
  | Partly share => blend host share painted kept
  | Whole => painted
  end.

(** The same under all the regions the context was clipped to. *)
Fixpoint clipped (host : Host) (regions : list (list PathCmd)) (i j : Z)
    (painted kept : Pixel) : Pixel :=
  match regions with
  | [] => painted
  | p :: rest =>
      edge host (coverage host p i j) (clipped host rest i j painted kept) kept
  end.

Definition with_pixels (ctx : Context2D) (px : Z -> Z -> Pixel) : Context2D :=
  {| canvas_width := canvas_width ctx;
     canvas_height := canvas_height ctx;
     pixels := px;
     fillStyle := fillStyle ctx;
     path := path ctx;
     clip_region := clip_region ctx;
     stack := stack ctx |}.

Definition with_path (ctx : Context2D) (p : list PathCmd) : Context2D :=
  {| canvas_width := canvas_width ctx;
     canvas_height := canvas_height ctx;
     pixels := pixels ctx;
     fillStyle := fillStyle ctx;
     path := p;
     clip_region := clip_region ctx;
     stack := stack ctx |}.

Definition with_state (ctx : Context2D) (style : Pixel)
    (clip : list (list PathCmd)) (st : list (Pixel * list (list PathCmd)))
    : Context2D :=
  {| canvas_width := canvas_width ctx;
     canvas_height := canvas_height ctx;
     pixels := pixels ctx;
     fillStyle := style;
     path := path ctx;
     clip_region := clip;
     stack := st |}.

(** Paint [colour i j] over every pixel of the canvas that [where_]
    selects, as far as the clip lets it through. *)
Definition paint (host : Host) (ctx : Context2D)
    (where_ : Z -> Z -> bool) (colour : Z -> Z -> Pixel) : Context2D :=
  with_pixels ctx (fun i j =>
    if in_canvas ctx i j && where_ i j
    then clipped host (clip_region ctx) i j
           (source_over host (colour i j) (pixels ctx i j)) (pixels ctx i j)
    else pixels ctx i j).

Definition exec (host : Host) (ctx : Context2D) (op : Op) : Context2D :=
  match op with
  | Save =>
      with_state ctx (fillStyle ctx) (clip_region ctx)
                 ((fillStyle ctx, clip_region ctx) :: stack ctx)
  | Restore =>
      match stack ctx with
      | (style, clip) :: rest => with_state ctx style clip rest
      | [] => ctx
      end
  | ClearRect x y w h =>
      with_pixels ctx (fun i j =>
        if in_canvas ctx i j && in_rect x y w h i j
        then clipped host (clip_region ctx) i j
               transparent_black (pixels ctx i j)
        else pixels ctx i j)
  | SetFillStyle c => with_state ctx (css_color c) (clip_region ctx) (stack ctx)
  | FillRect x y w h =>
      paint host ctx (in_rect x y w h) (fun _ _ => fillStyle ctx)
  | BeginPath => with_path ctx []
  | Trace c => with_path ctx (path ctx ++ [c])
  | Clip => with_state ctx (fillStyle ctx) (path ctx :: clip_region ctx) (stack ctx)
  | DrawImage img dx dy dw dh =>
      paint host ctx (fun _ _ => true) (sample host img dx dy dw dh)
  | DrawImageAt img dx dy =>
      paint host ctx (fun _ _ => true)
            (sample host img dx dy (inject_Z (naturalWidth img))
                                   (inject_Z (naturalHeight img)))
  end.

Definition draw (host : Host) (ops : list Op) (ctx : Context2D) : Context2D :=
  fold_left (exec host) ops ctx.

(** ** The region a path encloses

    The clip region of [clip()] is the set of points around which the path
    winds a number of times other than zero, every subpath being closed by a
    straight line.  It is used here through two facts that hold of every
    path made of lines and quadratic curves.  Replacing each curve by its
    chord leaves closed polygons; the path winds around a point as often
    as these polygons do, plus once, in one direction or the other, for every
    curve that has the point between itself and its chord. *)

Definition Point := (Q * Q)%type.

Inductive Segment :=
| Straight (a b : Point)
| Curved (a c b : Point).

(** The straight line that closes a subpath: from the current point [at_]
    to the point [start] where the subpath began. *)
Definition closing (start at_ : option Point) : list Segment :=
  match start, at_ with
  | Some s, Some p => [Straight p s]
  | _, _ => []
  end.

(** The segments the commands of a path trace.  Without a current point
    [lineTo] only moves, and [quadraticCurveTo] starts from its control
    point. *)
Fixpoint segments_from (start at_ : option Point) (cmds : list PathCmd)
    : list Segment :=
  match cmds with
  | [] => closing start at_
  | MoveTo x y :: rest =>
      closing start at_ ++ segments_from (Some (x, y)) (Some (x, y)) rest
  | LineTo x y :: rest =>
      match at_ with
      | Some p => Straight p (x, y) :: segments_from start (Some (x, y)) rest
      | None => segments_from (Some (x, y)) (Some (x, y)) rest
      end
  | QuadraticCurveTo cpx cpy x y :: rest =>
      match at_ with
      | Some p =>
          Curved p (cpx, cpy) (x, y) :: segments_from start (Some (x, y)) rest
      | None =>
          Curved (cpx, cpy) (cpx, cpy) (x, y)
          :: segments_from (Some (cpx, cpy)) (Some (x, y)) rest
      end
  | ClosePath :: rest => closing start at_ ++ segments_from start start rest
  end.

Definition segments (p : list PathCmd) : list Segment :=
  segments_from None None p.

Definition chord (s : Segment) : Point * Point :=
  match s with
  | Straight a b => (a, b)
  | Curved a _ b => (a, b)
  end.

(** Twice the signed area of the triangle [a], [b], [pt]: zero when [pt]
    is on the line through [a] and [b], of one sign on each side of it. *)
Definition cross (a b pt : Point) : Q :=
  ((fst b - fst a) * (snd pt - snd a) - (fst pt - fst a) * (snd b - snd a))%Q.

(** [pt] lies between a curve and its chord, the curve and the chord
    included.  With [u], [v], [t] the weights of [pt] on [a], [c], [b]
    (each the area of the triangle opposite, over the area [d] of the
    whole), the curve is where [v * v = 4 * u * t] and the chord where
    [v = 0]. *)
Definition in_bulge (s : Segment) (pt : Point) : Prop :=
  match s with
  | Straight _ _ => False
  | Curved a c b =>
      let d := cross a c b in
      let u := cross c b pt in
      let v := cross b a pt in
      let t := cross a c pt in
      (~ d == 0 /\ 0 <= u * d /\ 0 <= v * d /\ 0 <= t * d /\
       v * v <= 4 * u * t)%Q
  end.

(** [pt] is in the convex hull of [vs]: on the same side as [vs] of every
    line that has all of [vs] on one side. *)
Definition within_hull (vs : list Point) (pt : Point) : Prop :=
  forall a b c : Q,
    Forall (fun v => 0 <= a * fst v + b * snd v + c)%Q vs ->
    (0 <= a * fst pt + b * snd pt + c)%Q.

(** What every point of the region satisfies: it is in the hull of the
    points the path passes through, or between a curve and its chord. *)
Definition may_enclose (p : list PathCmd) (pt : Point) : Prop :=
  within_hull (map (fun s => fst (chord s)) (segments p)) pt \/
  Exists (fun s => in_bulge s pt) (segments p).

(** The chord of [s] turns around [pt] in the given direction, or not at
    all when it has no length. *)
Definition turns (positive : bool) (s : Segment) (pt : Point) : Prop :=
  let (a, b) := chord s in
  (if positive then 0 <= cross a b pt else cross a b pt <= 0)%Q /\
  ((fst a == fst b /\ snd a == snd b) \/ ~ cross a b pt == 0)%Q.

(** What suffices for a point to be in the region: all chords turn around
    it in one direction, one of them does turn, and the point is not between
    any curve and its chord. *)
Definition surely_enclosed (p : list PathCmd) (pt : Point) : Prop :=
  (exists positive, Forall (fun s => turns positive s pt) (segments p)) /\
  Exists (fun s => ~ cross (fst (chord s)) (snd (chord s)) pt == 0)%Q
         (segments p) /\
  Forall (fun s => ~ in_bulge s pt) (segments p).


(** Pixel [(i, j)] is the unit square with corners [(i, j)] and
    [(i + 1, j + 1)]. *)
Definition in_pixel (i j : Z) (pt : Point) : Prop :=
  (inject_Z i <= fst pt <= inject_Z i + 1 /\
   inject_Z j <= snd pt <= inject_Z j + 1)%Q.

(** A host follows the path [p] at pixel [(i, j)]: it covers the pixel only
    if the region may reach one of its points, and covers it whole if all
    its points are in the region. *)
Definition honours (host : Host) (p : list PathCmd) (i j : Z) : Prop :=
  (coverage host p i j <> Outside ->
   exists pt, in_pixel i j pt /\ may_enclose p pt) /\
  ((forall pt, in_pixel i j pt -> surely_enclosed p pt) ->
   coverage host p i j = Whole).

(** The size of the bitmap of a [<canvas width=... height=...>] given a
    number as attribute: the element reads a non-negative integer off the
    text of the number, that is the digits before the decimal point or the
    exponent, and falls back on [default] when there is none ([-...],
    [Infinity]) or when the integer is above 2147483647. *)
Definition canvas_pixels (default : Z) (attribute : Q) : Z :=
  let v := Number.to_double attribute in
  if Qeq_bool v 0 then 0
  else if negb (Qle_bool 0 v) || Number.infinite v then default
  else if Number.exponent_notation v then Number.leading_digit v
  else if Qfloor v <=? 2147483647 then Qfloor v else default.

(** The default size of a canvas. *)
Definition default_width : Z := 300.
Definition default_height : Z := 150.


End Canvas.

(* ================================================================== *)
(** * The export pipelines                                              *)
(* ================================================================== *)

(** [convertToPng], whose text is the same in both tools up to the drawing
    and to the name of the download. *)
Module Pipeline.
Import Canvas.
Local Open Scope string_scope.

(** The hidden [<canvas>] as [convertToPng] uses it: whether
    [getContext("2d")] gives a context, and what [toBlob] passes to its
    callback ([Some] blob, or [None] for [null]). *)
Record CanvasElement := {
  context2d : bool;
  toBlob : option nat
}.

(** What the export depends on: [props.canvas] (possibly [null]) and
    whether the [Image] created for the export ever fires [onload]. *)
Record Env := {
  canvas : option CanvasElement;
  image_loads : bool
}.

(** A settled promise of [void]. *)
Inductive Promise :=
| Fulfilled
| Rejected (message : string).

Definition context_error : string := "Failed to get canvas context".
Definition encode_error : string := "Canvas blob could not be created".
Definition canvas_error : string := "Canvas not present".

(** What one export does: the promise [convertToPng] returns, the calls
    made on the context, the promise of [saveImage] when it was called (it
    is discarded by [void saveImage()]), and the files handed to the
    browser's download mechanism by [link.click()]. *)
Record Outcome := {
  returned : Promise;
  drawn : list Op;
  saved : option Promise;
  downloads : list string
}.

(** [const ctx = props.canvas?.getContext("2d")] *)
Definition getContext (env : Env) : bool :=
  match canvas env with
  | Some c => context2d c
  | None => false
  end.

(** [saveImage]: its promise and the downloads it triggers. *)
Definition saveImage (env : Env) (download : string) : Promise * list string :=
  match canvas env with
  | Some c =>
      match toBlob c with
      | Some _ => (Fulfilled, [download])
      | None => (Rejected encode_error, [])
      end
  | None => (Rejected canvas_error, [])
  end.

Definition convertToPng (ops : list Op) (download : string) (env : Env)
    : Outcome :=
  if getContext env then
    if image_loads env then
      let (p, files) := saveImage env download in
      {| returned := Fulfilled; drawn := ops;
         saved := Some p; downloads := files |}
    else
      {| returned := Fulfilled; drawn := [];
         saved := None; downloads := [] |}
  else
    {| returned := Rejected context_error; drawn := [];
       saved := None; downloads := [] |}.

(** [toBlob] has no blob to give. *)
Definition blob_missing (env : Env) : Prop :=
  exists c, canvas env = Some c /\ toBlob c = None.

Definition blob_made (env : Env) : Prop :=
  exists c blob, canvas env = Some c /\ toBlob c = Some blob.

(** How an export ends, in terms of what it found. *)
Record export_behaviour (env : Env) (download : string) (out : Outcome)
  : Prop := {
  context_failure :
    returned out = Rejected context_error <-> getContext env = false;
  returned_otherwise :
    returned out = Fulfilled <-> getContext env = true;
  encode_failure :
    saved out = Some (Rejected encode_error) <->
    getContext env = true /\ image_loads env = true /\ blob_missing env;
  canvas_always_present :
    saved out <> Some (Rejected canvas_error);
  download_on_success :
    downloads out = [download] <->
    getContext env = true /\ image_loads env = true /\ blob_made env;
  failure_no_download :
    returned out <> Fulfilled \/ saved out <> Some Fulfilled ->
    downloads out = []
}.

(** [String.prototype.replace] with a string pattern: the first occurrence
    only. *)
Fixpoint replace_first (pattern replacement s : string) : string :=
  if String.prefix pattern s
  then replacement ++
       substring (String.length pattern)
                 (String.length s - String.length pattern) s
  else match s with
       | EmptyString => EmptyString
       | String c rest => String c (replace_first pattern replacement rest)
       end.

End Pipeline.

(** ** rounded-tool.tsx *)
Module RoundedTool.
Import Canvas.
Local Open Scope Q_scope.

(** [type Radius = number] *)
Definition Radius := Q.

(** The path of lines 68-78. *)
Definition rounded_path (radius : Radius) (width height : Z) : list PathCmd :=
  let w := inject_Z width in
  let h := inject_Z height in
  [ MoveTo radius 0;
    LineTo (Number.minus w radius) 0;
    QuadraticCurveTo w 0 w radius;
    LineTo w (Number.minus h radius);
    QuadraticCurveTo w h (Number.minus w radius) h;
    LineTo radius h;
    QuadraticCurveTo 0 h 0 (Number.minus h radius);
    LineTo 0 radius;
    QuadraticCurveTo 0 0 radius 0;
    ClosePath ].

(** The two differences of the path are computed without rounding, as for
    every whole radius. *)
Definition exact_differences (radius : Radius) (width height : Z) : Prop :=
  Number.minus (inject_Z width) radius == inject_Z width - radius /\
  Number.minus (inject_Z height) radius == inject_Z height - radius.

(** The body of [img.onload], lines 64-81. *)
Definition onload (img : Image) (radius : Radius) (background : BackgroundOption)
    (width height : Z) : list Op :=
  [ Save;
    ClearRect 0 0 width height;
    SetFillStyle background;
    FillRect 0 0 width height;
    BeginPath ]
  ++ map Trace (rounded_path radius width height)
  ++ [ Clip;
       DrawImage img 0 0 (inject_Z width) (inject_Z height);
       Restore ].

(** [canvasProps: { width: width, height: height }] *)
Definition canvasProps (width height : Z) : Z * Z := (width, height).


(** A point at distances [dx] and [dy] from the two edges that meet in a
    corner is cut off by the curve of that corner, which runs from one edge
    to the other at distance [radius] from the corner with the corner as
    control point: the curve is where
    [sqrt (dx / radius) + sqrt (dy / radius) = 1]. *)
Definition cutout (radius dx dy : Q) : Prop :=
  dx + dy < radius /\
  4 * dx * dy < (radius - dx - dy) * (radius - dx - dy).

(** Pixel [(i, j)] lies in one of the four corner cutouts, its point
    farthest from the corner included. *)
Definition in_cutout (radius : Radius) (width height i j : Z) : Prop :=
  let w := inject_Z width in
  let h := inject_Z height in
  let x := inject_Z i in
  let y := inject_Z j in
  cutout radius (x + 1) (y + 1) \/
  cutout radius (w - x) (y + 1) \/
  cutout radius (w - x) (h - y) \/
  cutout radius (x + 1) (h - y).

(** Pixel [(i, j)] lies off the border of the canvas, between the two
    curves of an edge: in the upright or in the level bar of the cross that
    the rounded rectangle contains. *)
Definition in_cross (radius : Radius) (width height i j : Z) : Prop :=
  let w := inject_Z width in
  let h := inject_Z height in
  let x := inject_Z i in
  let y := inject_Z j in
  (radius <= x /\ x + 1 <= w - radius /\ 0 < y /\ y + 1 < h) \/
  (0 < x /\ x + 1 < w /\ radius <= y /\ y + 1 <= h - radius).

(** The hidden canvas React keeps at [canvasProps], whatever an earlier
    export left in its bitmap. *)
Definition hidden_canvas (width height : Z) (px : Z -> Z -> Pixel) : Context2D :=
  {| canvas_width := fst (canvasProps width height);
     canvas_height := snd (canvasProps width height);
     pixels := px;
     fillStyle := css_color black;
     path := [];
     clip_region := [];
     stack := [] |}.

(** The bitmap after the drawing of an export. *)
Definition exported (host : Host) (img : Image) (radius : Radius)
    (background : BackgroundOption) (width height : Z)
    (px : Z -> Z -> Pixel) : Context2D :=
  draw host (onload img radius background width height)
       (hidden_canvas width height px).

(** [imageFileName.replace(/\..+$/, "")]: the text is cut at the first dot
    that is followed by at least one character and by no line terminator.
    A text is the sequence of the bytes of its UTF-8 encoding.  The dot of
    a regular expression refuses the four line terminators: line feed and
    carriage return, of one byte each, and the line separator U+2028 and
    the paragraph separator U+2029, of three bytes each. *)
Definition line_terminator (c : ascii) : bool :=
  (Ascii.eqb c "010" || Ascii.eqb c "013")%char.

Definition line_separator : string :=
  String "226" (String "128" (String "168" EmptyString)).

Definition paragraph_separator : string :=
  String "226" (String "128" (String "169" EmptyString)).

Fixpoint one_line (s : string) : bool :=
  match s with
  | EmptyString => true
  | String c rest =>
      negb (line_terminator c)
      && negb (String.prefix line_separator s)
      && negb (String.prefix paragraph_separator s)
      && one_line rest
  end.

Fixpoint strip_extension (s : string) : string :=
  match s with
  | EmptyString => EmptyString
  | String c rest =>
      if Ascii.eqb c "."%char && negb (String.eqb rest "") && one_line rest
      then EmptyString
      else String c (strip_extension rest)
  end.

(** Lines 57-58. *)
Definition download_name (imageFileName : string) : string :=
  (strip_extension imageFileName ++ ".png")%string.

(** [convertToPng] of the rounded-border tool. *)
Definition convertToPng (img : Image) (radius : Radius)
    (background : BackgroundOption) (width height : Z) (name : string)
    (env : Pipeline.Env) : Pipeline.Outcome :=
  Pipeline.convertToPng (onload img radius background width height)
                        (download_name name) env.

End RoundedTool.

(** ** svg-tool.tsx *)
Module SvgTool.
Import Canvas.
Local Open Scope Q_scope.

(** Lines 17-18: [width = imageMetadata.width * scale], likewise
    [height]. *)
Definition scaled (width height : Z) (scale : Q) : Q * Q :=
  (Number.times (inject_Z width) scale, Number.times (inject_Z height) scale).

(** [canvasProps: { width: width, height: height }] *)
Definition canvasProps (width height : Z) (scale : Q) : Q * Q :=
  scaled width height scale.

(** The bitmap size of the canvas given these attributes. *)
Definition raster_size (width height : Z) (scale : Q) : Z * Z :=
  (canvas_pixels default_width (fst (canvasProps width height scale)),
   canvas_pixels default_height (snd (canvasProps width height scale))).

(** The body of [img.onload], lines 61-67; [props.canvas] is not [null]
    there, so the rectangle cleared is the canvas' own. *)
Definition onload (img : Image) (width height : Z) (scale : Q) : list Op :=
  let size := raster_size width height scale in
  [ ClearRect 0 0 (fst size) (snd size);
    DrawImage img 0 0 (fst (scaled width height scale))
                      (snd (scaled width height scale)) ].

Definition hidden_canvas (width height : Z) (scale : Q)
    (px : Z -> Z -> Pixel) : Context2D :=
  {| canvas_width := fst (raster_size width height scale);
     canvas_height := snd (raster_size width height scale);
     pixels := px;
     fillStyle := css_color black;
     path := [];
     clip_region := [];
     stack := [] |}.

Definition exported (host : Host) (img : Image) (width height : Z) (scale : Q)
    (px : Z -> Z -> Pixel) : Context2D :=
  draw host (onload img width height scale) (hidden_canvas width height scale px).


(** No dot in the text. *)
Fixpoint dotless (s : string) : bool :=
  match s with
  | EmptyString => true
  | String c rest => negb (Ascii.eqb c "."%char) && dotless rest
  end.

Section Download.
(** The conversion of a number to the text a template literal inserts. *)
Variable numberToString : Q -> string.

(** Lines 51-54. *)
Definition download_name (svgFileName : string) (scale : Q) : string :=
  (Pipeline.replace_first ".svg" "" svgFileName
   ++ "-" ++ numberToString scale ++ "x.png")%string.

(** The name the specification describes: the source name without its
    extension (the text from its last dot on), then the scale. *)
Fixpoint last_dot (s : string) : option nat :=
  match s with
  | EmptyString => None
  | String c rest =>
      match last_dot rest with
      | Some k => Some (S k)
      | None => if Ascii.eqb c "."%char then Some O else None
      end
  end.

Definition basename (s : string) : string :=
  match last_dot s with
  | Some k => substring 0 k s
  | None => s
  end.

Definition specified_name (svgFileName : string) (scale : Q) : string :=
  (basename svgFileName ++ "-" ++ numberToString scale ++ "x.png")%string.

(** [convertToPng] of the SVG tool. *)
Definition convertToPng (img : Image) (width height : Z) (name : string)
    (scale : Q) (env : Pipeline.Env) : Pipeline.Outcome :=
  Pipeline.convertToPng (onload img width height scale)
                      (download_name name scale) env.

End Download.

End SvgTool.

(* ================================================================== *)
(** * What the tools let into the upload session                        *)
(* ================================================================== *)

Module Intake.
Import UploadSession.
Local Open Scope string_scope.

(** The allowlist [useFileUploader] gives to [useClipboardPaste], whichever
    tool calls the hook (use-file-uploader, line 88). *)
Definition paste_acceptedFileTypes : list string :=
  ["image/*"; ".jpg"; ".jpeg"; ".png"; ".webp"; ".svg"].

(** The allowlist [SVGTool] gives to [FileDropzone] (svg-tool, line 211). *)
Definition svg_acceptedFileTypes : list string :=
  ["image/svg+xml"; ".svg"].

(** [handleFileUploadEvent]: the first file of the input element, if any,
    becomes the source; its type is not looked at. *)
Definition handleFileUploadEvent (files : list File) (s : Session) : Session :=
  match files with
  | file :: _ => setImageBlob (Some file) s
  | [] => s
  end.

(** [handleFilePaste] *)
Definition handleFilePaste (file : File) (s : Session) : Session :=
  setImageBlob (Some file) s.

Definition ends_with (suffix s : string) : bool :=
  let n := String.length suffix in
  let m := String.length s in
  Nat.leb n m && String.eqb (substring (m - n) n s) suffix.

(** Modelled from the spec: the matching of [use-clipboard-paste], which the
    sources do not contain.  Section 4.3 has the bridge select the first item
    whose type matches an allowlist of MIME wildcard patterns and
    extensions; an entry is an extension ([.svg]), a wildcard ([image/*]) or
    a MIME type. *)
Definition matches (entry : string) (file : File) : bool :=
  if String.prefix "." entry then ends_with entry (file_name file)
  else if ends_with "/*" entry
       then String.prefix (substring 0 (String.length entry - 1) entry)
                          (file_type file)
       else String.eqb entry (file_type file).

Definition allowed (allowlist : list string) (file : File) : bool :=
  existsb (fun entry => matches entry file) allowlist.

(** Modelled from the spec: the paste bridge of section 4.3, registered by
    [useFileUploader] with [handleFilePaste] and its own allowlist. *)
Definition paste (items : list File) (s : Session) : Session :=
  match find (allowed paste_acceptedFileTypes) items with
  | Some file => handleFilePaste file s
  | None => s
  end.

End Intake.

(* ================================================================== *)
(** * Invariants of the upload session                                  *)
(* ================================================================== *)

Module SessionInvariants.
Import UseAsyncMemo UploadSession.

(** The object URLs that are not, or no longer, in the hands of the
    component: those of the outstanding producers and those revoked. *)
Definition held (s : Session) : list Url :=
  pending_urls (pending (memo s)) ++ revoked (urls s).

Definition immediate_nothing (c : Call Derived NoError Producer) : Prop :=
  match call_promise c with
  | Immediate value => value = nothing
  | Decoding _ _ => True
  end.

Definition allocated (s : Session) (u : Url) : Prop := u < next_url (urls s).

(** What every step of the session preserves. *)
Record consistent (s : Session) : Prop := {
  held_once : NoDup (held s);
  held_allocated : Forall (allocated s) (held s);
  exposed_apart : forall u, imageBlobUrl (exposed s) = Some u ->
                            allocated s u /\ ~ In u (held s);
  preview_apart : forall u, preview s = Some (Some u) ->
                            allocated s u /\ ~ In u (held s);
  calls_numbered : well_numbered (memo s);
  immediates : Forall immediate_nothing (pending (memo s));
  refs_fresh : forall sg, last_deps (memo s) = Some sg ->
                          sig_factory sg < next_ident s;
  unmounted_idle : mounted s = false -> pending (memo s) = []
}.

(** Both derived fields present, or both absent. *)
Definition paired (d : Derived) : Prop :=
  (imageBlobUrl d = None /\ imageMetadata d = None) \/
  (exists u m, imageBlobUrl d = Some u /\ imageMetadata d = Some m).

(** [d] was computed from [f]. *)
Definition derived_from (f : File) (d : Derived) : Prop :=
  exists u size, file_natural_size f = Some size /\ d = derived_of f u size.

(** [f] was given to the session at some point of the trace. *)
Definition supplied (trace : list Event) (f : File) : Prop :=
  In (Replace f) trace.

(** Where the files in a session come from. *)
Record sourced (trace : list Event) (s : Session) : Prop := {
  blob_supplied : forall f, imageBlob s = Some f -> supplied trace f;
  calls_supplied : forall c f u, In c (pending (memo s)) ->
                                 call_promise c = Decoding f u ->
                                 supplied trace f;
  exposed_supplied : exposed s = nothing \/
                     exists f, supplied trace f /\ derived_from f (exposed s)
}.

(** No new file is given. *)
Definition no_input (e : Event) : Prop :=
  match e with
  | Replace _ => False
  | _ => True
  end.

(** No source file and no decoding under way. *)
Definition idle (s : Session) : Prop :=
  imageBlob s = None /\ pending_urls (pending (memo s)) = [].

End SessionInvariants.

(* ================================================================== *)
(** * References compared by useAsyncMemo                               *)
(* ================================================================== *)

Module HookReferences.
Import UseAsyncMemo.

(** The error handlers of two calls are the same object for React: both
    supplied with the same reference, or both left out with the same
    [loadingState] (the default is memoised on it). *)
Definition same_handler {V E P W : Type} (a a' : Args V E P W) : Prop :=
  match errorState a, errorState a' with
  | Some (i, _), Some (j, _) => i = j
  | None, None => loadingState_id a = loadingState_id a'
  | _, _ => False
  end.

End HookReferences.

(* ================================================================== *)
(** * The controls of the two tools                                     *)
(* ================================================================== *)

(** [RoundedToolCore], rounded-tool.tsx lines 166-195. *)
Module RoundedControls.
Import UploadSession.

(** The value the radius selector reports: [number | "custom"]. *)
Inductive RadiusChoice :=
| CustomRadius
| PresetRadius (value : Q).

(** The two state cells: [radius] and [isCustomRadius]. *)
Record Controls := {
  radius : Q;
  isCustomRadius : bool
}.

(** [handleRadiusChange], lines 176-183. *)
Definition handleRadiusChange (value : RadiusChoice) (c : Controls) : Controls :=
  match value with
  | CustomRadius => {| radius := radius c; isCustomRadius := true |}
  | PresetRadius v => {| radius := v; isCustomRadius := false |}
  end.

(** [onCustomValueChange={setRadius}] *)
Definition setRadius (value : Q) (c : Controls) : Controls :=
  {| radius := value; isCustomRadius := isCustomRadius c |}.

(** [selected={isCustomRadius ? "custom" : radius}] *)
Definition selected (c : Controls) : RadiusChoice :=
  if isCustomRadius c then CustomRadius else PresetRadius (radius c).

(** [if (!imageMetadata || !imageBlobUrl)]: the upload box is shown
    instead of the editor. *)
Definition shows_upload_box (d : Derived) : bool :=
  match imageMetadata d, imageBlobUrl d with
  | Some _, Some _ => false
  | _, _ => true
  end.

End RoundedControls.

(** [SVGToolCore], svg-tool.tsx lines 121-142 and 196-200. *)
Module SvgControls.
Import UploadSession.

(** [type Scale = "custom" | number] *)
Inductive Scale :=
| CustomScale
| PresetScale (value : Q).

(** The two stored values: [scale] and [customScale]. *)
Record Controls := {
  scale : Scale;
  customScale : Q
}.

(** [onChange={setScale}] *)
Definition setScale (value : Scale) (c : Controls) : Controls :=
  {| scale := value; customScale := customScale c |}.

(** [onCustomValueChange={setCustomScale}] *)
Definition setCustomScale (value : Q) (c : Controls) : Controls :=
  {| scale := scale c; customScale := value |}.

(** [const effectiveScale = scale === "custom" ? customScale : scale] *)
Definition effectiveScale (c : Controls) : Q :=
  match scale c with
  | CustomScale => customScale c
  | PresetScale v => v
  end.

(** [if (!imageMetadata)]: the upload box is shown instead of the
    editor. *)
Definition shows_upload_box (d : Derived) : bool :=
  match imageMetadata d with
  | Some _ => false
  | None => true
  end.

(** The [imageBlobUrl] the editor gives to the save button:
    [imageBlobUrl ?? ""]. *)
Inductive Source :=
| BlobUrl (u : Url)
| EmptySource.

Definition button_url (d : Derived) : Source :=
  match imageBlobUrl d with
  | Some u => BlobUrl u
  | None => EmptySource
  end.

End SvgControls.

(* ================================================================== *)
(** * The object URL of an export                                       *)
(* ================================================================== *)

(** [usedCanvasBlobUrl] and its cleanup, the same text in
    [useImageConverter] (lines 28-37, 53-54) and [useSvgConverter]
    (lines 20-29, 46-47). *)
Module ExportUrl.
Import UploadSession.

Record Converter := {
  alive : bool;
  (** [useState<string | null>(null)] *)
  usedCanvasBlobUrl : option Url;
  (** the value the registered cleanup captured; [None] before the first
      commit *)
  registered : option (option Url);
  store : UrlStore
}.

Definition fresh : Converter :=
  {| alive := true;
     usedCanvasBlobUrl := None;
     registered := None;
     store := {| next_url := 0; revoked := [] |} |}.

(** [saveImage] got its blob: [URL.createObjectURL(canvasBlob)], then
    [setUsedCanvasBlobUrl], which does nothing once the component is
    gone. *)
Definition saved (c : Converter) : Converter :=
  let (w, u) := createObjectURL (store c) in
  {| alive := alive c;
     usedCanvasBlobUrl := if alive c then Some u else usedCanvasBlobUrl c;
     registered := registered c;
     store := w |}.

(** The commit of a render. *)
Definition rendered (c : Converter) : Converter :=
  if alive c then
    {| alive := true;
       usedCanvasBlobUrl := usedCanvasBlobUrl c;
       registered := Some (usedCanvasBlobUrl c);
       store := run_cleanup (registered c) (usedCanvasBlobUrl c) (store c) |}
  else c.

(** The component is removed: the registered cleanup runs. *)
Definition removed (c : Converter) : Converter :=
  if alive c then
    {| alive := false;
       usedCanvasBlobUrl := None;
       registered := None;
       store := match registered c with
                | Some captured => cleanup captured (store c)
                | None => store c
                end |}
  else c.

Inductive Event :=
| Saved
| Rendered
| Removed.

Definition step (c : Converter) (e : Event) : Converter :=
  match e with
  | Saved => saved c
  | Rendered => rendered c
  | Removed => removed c
  end.

Definition run (trace : list Event) (c : Converter) : Converter :=
  fold_left step trace c.

(** [n] exports, each followed by the render its [setState] causes. *)
Fixpoint exports (n : nat) : list Event :=
  match n with
  | O => []
  | S k => Saved :: Rendered :: exports k
  end.

Definition url_list (o : option Url) : list Url :=
  match o with
  | Some u => [u]
  | None => []
  end.

Definition captured_list (o : option (option Url)) : list Url :=
  match o with
  | Some (Some u) => [u]
  | _ => []
  end.

(** What every step preserves. *)
Record tidy (c : Converter) : Prop := {
  revoked_once : NoDup (revoked (store c));
  revoked_allocated : Forall (fun u => u < next_url (store c))
                             (revoked (store c));
  used_apart : forall u, usedCanvasBlobUrl c = Some u ->
                         u < next_url (store c) /\
                         ~ In u (revoked (store c));
  registered_apart : forall u, registered c = Some (Some u) ->
                               u < next_url (store c) /\
                               ~ In u (revoked (store c))
}.

(** The state after [k] exports, each one rendered. *)
Definition after_exports (k : nat) : Converter :=
  {| alive := true;
     usedCanvasBlobUrl := match k with O => None | S j => Some j end;
     registered := Some (match k with O => None | S j => Some j end);
     store := {| next_url := k; revoked := seq 0 (Nat.pred k) |} |}.

End ExportUrl.

(* ================================================================== *)
(** * Sample inputs                                                     *)
(* ================================================================== *)

Module Samples.
Import UploadSession.
Local Open Scope string_scope.

Definition first : File :=
  {| file_name := "first.png";
     file_type := "image/png";
     file_natural_size := Some (10, 20)%Z |}.

Definition second : File :=
  {| file_name := "second.png";
     file_type := "image/png";
     file_natural_size := Some (30, 40)%Z |}.

Definition photo : File :=
  {| file_name := "photo.png";
     file_type := "image/png";
     file_natural_size := Some (4, 4)%Z |}.

Definition picture : Canvas.Image :=
  {| Canvas.naturalWidth := 4; Canvas.naturalHeight := 4; Canvas.content := 0 |}.

(** A canvas with a context whose [toBlob] passes [null]. *)
Definition no_blob : Pipeline.Env :=
  {| Pipeline.canvas :=
       Some {| Pipeline.context2d := true; Pipeline.toBlob := None |};
     Pipeline.image_loads := true |}.

(** A picture of 16 x 16 pixels. *)
Definition poster : Canvas.Image :=
  {| Canvas.naturalWidth := 16; Canvas.naturalHeight := 16;
     Canvas.content := 1 |}.

(** A host that composites by replacing (unless the source is fully
    transparent), covers every pixel off the first row and column whole with
    any path and no other pixel, and draws every image as one opaque
    colour. *)
Definition plain_host : Canvas.Host :=
  {| Canvas.source_over := fun s d => if (Canvas.alpha s =? 0)%Z then d else s;
     Canvas.coverage := fun _ i j =>
       if ((0 <? i) && (0 <? j))%Z then Canvas.Whole else Canvas.Outside;
     Canvas.blend := fun _ painted _ => painted;
     Canvas.sample := fun _ _ _ _ _ _ _ =>
       {| Canvas.red := 10; Canvas.green := 20; Canvas.blue := 30;
          Canvas.alpha := 255 |} |}.

(** The same host showing images that are transparent throughout. *)
Definition glass_host : Canvas.Host :=
  {| Canvas.source_over := Canvas.source_over plain_host;
     Canvas.coverage := Canvas.coverage plain_host;
     Canvas.blend := Canvas.blend plain_host;
     Canvas.sample := fun _ _ _ _ _ _ _ => Canvas.transparent_black |}.

(** A hook whose world counts the calls of the producer, called with an
    error handler that reports the length of the message; and the same hook
    at a later render, with the same [deps] array and a new closure for the
    producer. *)
Definition counting : UseAsyncMemo.Args nat string unit nat :=
  {| UseAsyncMemo.factory_id := 0;
     UseAsyncMemo.factory := fun calls => (S calls, tt);
     UseAsyncMemo.deps_id := 1;
     UseAsyncMemo.loadingState_id := 2;
     UseAsyncMemo.loadingState := 0;
     UseAsyncMemo.errorState := Some (3, String.length) |}.

Definition counting_again : UseAsyncMemo.Args nat string unit nat :=
  {| UseAsyncMemo.factory_id := 4;
     UseAsyncMemo.factory := fun calls => (S calls, tt);
     UseAsyncMemo.deps_id := 1;
     UseAsyncMemo.loadingState_id := 2;
     UseAsyncMemo.loadingState := 0;
     UseAsyncMemo.errorState := Some (3, String.length) |}.

(** A hook called with an error handler that reports the length of the
    message. *)
Definition measuring : UseAsyncMemo.Args nat string unit unit :=
  {| UseAsyncMemo.factory_id := 0;
     UseAsyncMemo.factory := fun w => (w, tt);
     UseAsyncMemo.deps_id := 1;
     UseAsyncMemo.loadingState_id := 2;
     UseAsyncMemo.loadingState := 0;
     UseAsyncMemo.errorState := Some (3, String.length) |}.

(** The outstanding call of [first] after two files were given in turn. *)
Definition slow_call
  : UseAsyncMemo.Call Derived NoError Producer :=
  {| UseAsyncMemo.call_id := 1;
     UseAsyncMemo.call_promise := Decoding first 0;
     UseAsyncMemo.call_onError := fun _ => nothing |}.

End Samples.

(* ================================================================== *)
(** * Properties of useAsyncMemo                                        *)
(* ================================================================== *)

Module HookFacts.
Import UseAsyncMemo HookReferences.

Section Facts.
Context {V E P W : Type}.
Implicit Types (h : Hook V E P) (c : Call V E P) (a : Args V E P W).

Lemma mount_well_numbered (initial : V) :
  well_numbered (mount (E := E) (P := P) initial).
Proof.
  split; simpl; constructor.
Qed.

Lemma effect_fields a h (w : W) :
  let h' := fst (effect a (h, w)) in
  result h' = loadingState a /\
  last_deps h' = Some (signature a) /\
  issued h' = S (issued h) /\
  pending h' = pending h ++
               [{| call_id := issued h;
                   call_promise := snd (factory a w);
                   call_onError := effective_errorState a |}] /\
  snd (effect a (h, w)) = fst (factory a w).
Proof.
  unfold effect. destruct (factory a w) as [w' p]. simpl. repeat split.
Qed.

Lemma effect_well_numbered a h (w : W) :
  well_numbered h -> well_numbered (fst (effect a (h, w))).
Proof.
  intros [Hnd Hlt].
  destruct (effect_fields a h w) as (_ & _ & Hi & Hp & _).
  unfold well_numbered. rewrite Hp, Hi. split.
  - rewrite map_app. simpl.
    apply NoDup_app.
    + exact Hnd.
    + constructor; [intros [] | constructor].
    + intros k Hin [Hk | []]. subst k.
      apply in_map_iff in Hin. destruct Hin as (c & Hc & Hin).
      rewrite Forall_forall in Hlt. specialize (Hlt c Hin). lia.
  - apply Forall_app. split.
    + eapply Forall_impl; [| exact Hlt]. simpl. intros; lia.
    + constructor; [simpl; lia | constructor].
Qed.

Lemma effect_inv a h (w : W) h' (w' : W) :
  effect a (h, w) = (h', w') ->
  result h' = loadingState a /\
  last_deps h' = Some (signature a) /\
  issued h' = S (issued h) /\
  pending h' = pending h ++
               [{| call_id := issued h;
                   call_promise := snd (factory a w);
                   call_onError := effective_errorState a |}] /\
  w' = fst (factory a w) /\
  (well_numbered h -> well_numbered h').
Proof.
  intro H.
  pose proof (effect_fields a h w) as F.
  pose proof (effect_well_numbered a w (h := h)) as Fn.
  cbv zeta in F. rewrite H in F, Fn. simpl in F, Fn.
  destruct F as (F1 & F2 & F3 & F4 & F5).
  split; [exact F1 |]. split; [exact F2 |]. split; [exact F3 |].
  split; [exact F4 |]. split; [now symmetry | exact Fn].
Qed.

Lemma commit_well_numbered a h (w : W) :
  well_numbered h -> well_numbered (fst (commit a (h, w))).
Proof.
  intro H. unfold commit. simpl.
  destruct (deps_changed (last_deps h) (signature a)).
  - now apply effect_well_numbered.
  - exact H.
Qed.

(** An outstanding call is found under its own number. *)
Lemma find_own_number (l : list (Call V E P)) c :
  NoDup (map call_id l) -> In c l -> find (is_call (call_id c)) l = Some c.
Proof.
  induction l as [| d l IH]; simpl; intros Hnd Hin; [contradiction |].
  inversion Hnd as [| ? ? Hnot Hnd']; subst.
  unfold is_call at 1.
  destruct (Nat.eqb_spec (call_id d) (call_id c)) as [Heq | Hne].
  - destruct Hin as [-> | Hin]; [reflexivity |].
    exfalso. apply Hnot. rewrite Heq. now apply in_map.
  - destruct Hin as [-> | Hin]; [congruence |]. now apply IH.
Qed.

Lemma find_is_call_In (l : list (Call V E P)) k c :
  find (is_call k) l = Some c -> In c l /\ call_id c = k.
Proof.
  intro H. apply find_some in H. destruct H as [Hin Hk].
  split; [exact Hin |]. now apply Nat.eqb_eq.
Qed.

Lemma settle_fields k (o : Settlement V E) h c :
  find (is_call k) (pending h) = Some c ->
  exists h',
    settle k o h = Some h' /\
    result h' = on_settled c o /\
    last_deps h' = last_deps h /\
    issued h' = issued h /\
    pending h' = filter (fun c' => negb (is_call k c')) (pending h).
Proof.
  intro Hf. unfold settle. rewrite Hf. eexists. repeat split.
Qed.

Lemma settle_well_numbered k (o : Settlement V E) h h' :
  well_numbered h -> settle k o h = Some h' -> well_numbered h'.
Proof.
  intros [Hnd Hlt] Hs. unfold settle in Hs.
  destruct (find (is_call k) (pending h)); [| discriminate].
  injection Hs as <-. split; simpl.
  - clear Hlt. induction (pending h) as [| d l IH]; simpl; [constructor |].
    inversion Hnd as [| ? ? Hnot Hnd']; subst.
    destruct (negb (is_call k d)); simpl; [| now apply IH].
    constructor; [| now apply IH].
    intro Hin. apply Hnot. apply in_map_iff in Hin.
    destruct Hin as (x & Hx & Hin). apply filter_In in Hin.
    apply in_map_iff. exists x. tauto.
  - rewrite Forall_forall in *. intros x Hin. apply filter_In in Hin.
    now apply Hlt.
Qed.

(** A fulfilled promise commits its value whatever the dependency array
    has become since the call was issued: [settle] never looks at
    [last_deps]. *)
Lemma fulfilment_commits h c (value : V) :
  well_numbered h -> In c (pending h) ->
  exists h',
    settle (call_id c) (Fulfilled value) h = Some h' /\
    result h' = value /\
    last_deps h' = last_deps h.
Proof.
  intros [Hnd _] Hin.
  pose proof (find_own_number (pending h) c Hnd Hin) as Hf.
  destruct (settle_fields (call_id c) (Fulfilled value) h Hf)
    as (h' & Hs & Hr & Hd & _).
  exists h'. repeat split; assumption.
Qed.

(** A render whose dependency array is unchanged does nothing: [factory]
    is not called. *)
Lemma commit_unchanged a h (w : W) :
  deps_changed (last_deps h) (signature a) = false -> commit a (h, w) = (h, w).
Proof.
  intro H. unfold commit. simpl. now rewrite H.
Qed.

End Facts.

Lemma HandlerRef_eqb_eq {V E P W : Type} (a a' : Args V E P W) :
  HandlerRef_eqb (errorState_ref a) (errorState_ref a') = true <->
  same_handler a a'.
Proof.
  unfold errorState_ref, same_handler.
  destruct (errorState a) as [[i f] |], (errorState a') as [[j g] |]; simpl;
    try (split; [discriminate | contradiction]);
    apply Nat.eqb_eq.
Qed.

(** The dependency array of a render is the one of the render before
    exactly when the four references are the same. *)
Lemma same_signature_iff {V E P W : Type} (a a' : Args V E P W) :
  deps_changed (Some (signature a)) (signature a') = false <->
  factory_id a = factory_id a' /\
  loadingState_id a = loadingState_id a' /\
  deps_id a = deps_id a' /\
  same_handler a a'.
Proof.
  unfold deps_changed, same_signature, signature; simpl.
  rewrite negb_false_iff, !andb_true_iff, !Nat.eqb_eq, HandlerRef_eqb_eq.
  tauto.
Qed.

(** C2 (as the code has it).  A call of the producer issued by a render
    with arguments [a] keeps the error handler of that render: the
    [errorState] supplied, or else the function returning [loadingState].
    Whenever the promise of that call is rejected with [e], in whatever later
    state [h2] of the hook, the value reported becomes [onError e],
    respectively [loadingState]; the rejection itself does not invoke the
    producer: the number of invocations stays what it was, the call leaves
    the outstanding ones and none is added.  The hook keeps no trace of the
    rejection.  The next render, with arguments [a'], decides as any render
    does: if its dependency array is the last one it leaves hook and world
    untouched; if not it reports [loadingState] and invokes the producer
    again, once.  Where the rejected call was the last one issued, the array
    is the last one exactly when [factory], [loadingState], the [deps] array
    and the error handler are the same objects as for [a]; so the producer
    is retried as soon as one of them is a new object, be the contents of
    [deps] what they were. *)
Theorem rejection_reports_errorState
    {V E P W : Type} (a : Args V E P W) (h h2 : Hook V E P) (w : W) (e : E) :
  let c := {| call_id := issued h;
              call_promise := snd (factory a w);
              call_onError := effective_errorState a |} in
  pending (fst (effect a (h, w))) = pending h ++ [c] /\
  (well_numbered h2 -> In c (pending h2) ->
   exists h3,
     settle (issued h) (Rejected e) h2 = Some h3 /\
     result h3 = match errorState a with
                 | Some (_, onError) => onError e
                 | None => loadingState a
                 end /\
     issued h3 = issued h2 /\
     ~ In c (pending h3) /\
     incl (pending h3) (pending h2) /\
     forall (a' : Args V E P W) (w' : W),
       (deps_changed (last_deps h2) (signature a') = false ->
        commit a' (h3, w') = (h3, w')) /\
       (deps_changed (last_deps h2) (signature a') = true ->
        result (fst (commit a' (h3, w'))) = loadingState a' /\
        issued (fst (commit a' (h3, w'))) = S (issued h2) /\
        snd (commit a' (h3, w')) = fst (factory a' w') /\
        exists c',
          pending (fst (commit a' (h3, w'))) = pending h3 ++ [c'] /\
          call_id c' = issued h2 /\
          call_promise c' = snd (factory a' w')) /\
       (last_deps h2 = Some (signature a) ->
        (deps_changed (last_deps h2) (signature a') = false <->
         factory_id a = factory_id a' /\
         loadingState_id a = loadingState_id a' /\
         deps_id a = deps_id a' /\
         same_handler a a'))).
Proof.
  intro c. split.
  - now destruct (effect_fields a h w) as (_ & _ & _ & Hp & _).
  - intros [Hnd Hlt] Hin.
    pose proof (find_own_number (pending h2) c Hnd Hin) as Hf.
    change (call_id c) with (issued h) in Hf.
    destruct (settle_fields (issued h) (Rejected e) h2 Hf)
      as (h3 & Hs & Hr & Hd & Hi & Hp).
    exists h3.
    split; [exact Hs |]. split; [| split; [exact Hi | split; [| split]]].
    + rewrite Hr. simpl. unfold effective_errorState.
      destruct (errorState a) as [[i onError] |]; reflexivity.
    + rewrite Hp. intro Hc. apply filter_In in Hc. destruct Hc as [_ Hc].
      unfold is_call in Hc. simpl in Hc. rewrite Nat.eqb_refl in Hc.
      discriminate.
    + rewrite Hp. intros x Hx. apply filter_In in Hx. tauto.
    + intros a' w'. split; [| split].
      * intro Hsame. apply commit_unchanged. now rewrite Hd.
      * intro Hnew. unfold commit. cbn [fst]. rewrite Hd, Hnew.
        destruct (effect_fields a' h3 w') as (F1 & _ & F3 & F4 & F5).
        split; [exact F1 |]. split; [now rewrite F3, Hi |].
        split; [exact F5 |].
        eexists. split; [exact F4 |]. split; [exact Hi | reflexivity].
      * intros Hlast. rewrite Hlast. apply same_signature_iff.
Qed.

(** C2, counterexample.  The producer is called once and its promise is
    rejected; the hook reports the length of the message.  The render that
    follows has the same [deps] array and a new closure for the producer:
    the producer is called a second time, and the hook reports
    [loadingState] again. *)
Lemma rejected_call_is_retried :
  exists h3,
    settle 0 (Rejected "failed"%string)
           (fst (effect Samples.counting (mount 0, 0))) = Some h3 /\
    result h3 = 6 /\
    snd (effect Samples.counting (mount 0, 0)) = 1 /\
    deps_id Samples.counting_again = deps_id Samples.counting /\
    snd (commit Samples.counting_again (h3, 1)) = 2 /\
    issued (fst (commit Samples.counting_again (h3, 1))) = 2 /\
    result (fst (commit Samples.counting_again (h3, 1))) = 0.
Proof.
  eexists. split; [reflexivity |]. repeat split.
Qed.

End HookFacts.

(* ================================================================== *)
(** * Properties of the upload session                                  *)
(* ================================================================== *)

Module SessionFacts.
Import UseAsyncMemo UploadSession SessionInvariants HookFacts.

(** ** Lists of object URLs *)

Lemma NoDup_app_split {A : Type} (l1 l2 : list A) :
  NoDup (l1 ++ l2) <->
  NoDup l1 /\ NoDup l2 /\ forall x, In x l1 -> ~ In x l2.
Proof.
  split.
  - intro H. split; [now apply NoDup_app_remove_r in H |].
    split; [now apply NoDup_app_remove_l in H |].
    induction l1 as [| a l1 IH]; simpl in *; [tauto |].
    inversion H as [| ? ? Hnot Hnd]; subst.
    intros x [-> | Hx] Hin.
    + apply Hnot. apply in_or_app. now right.
    + now apply (IH Hnd x).
  - intros (H1 & H2 & H3). now apply NoDup_app.
Qed.

Lemma NoDup_snoc {A : Type} (l : list A) (x : A) :
  NoDup l -> ~ In x l -> NoDup (l ++ [x]).
Proof.
  intros Hl Hx. apply NoDup_app_split. split; [exact Hl |]. split.
  - constructor; [intros [] | constructor].
  - intros y Hy [<- | []]. contradiction.
Qed.

Lemma pending_urls_app (l l' : list (Call Derived NoError Producer)) :
  pending_urls (l ++ l') = pending_urls l ++ pending_urls l'.
Proof.
  induction l as [| c l IH]; simpl; [reflexivity |].
  destruct (producer_url (call_promise c)); simpl; now rewrite IH.
Qed.

Lemma pending_urls_In l (c : Call Derived NoError Producer) f u :
  In c l -> call_promise c = Decoding f u -> In u (pending_urls l).
Proof.
  induction l as [| d l IH]; simpl; [contradiction |].
  intros [-> | Hin] Hp.
  - rewrite Hp. simpl. now left.
  - destruct (producer_url (call_promise d)); simpl; auto.
Qed.

Lemma pending_urls_filter_In p (l : list (Call Derived NoError Producer)) u :
  In u (pending_urls (filter p l)) -> In u (pending_urls l).
Proof.
  induction l as [| d l IH]; simpl; [auto |].
  destruct (p d); simpl;
    destruct (producer_url (call_promise d)); simpl; intuition.
Qed.

Lemma pending_urls_filter_NoDup p (l : list (Call Derived NoError Producer)) :
  NoDup (pending_urls l) -> NoDup (pending_urls (filter p l)).
Proof.
  induction l as [| d l IH]; simpl; [auto |].
  destruct (p d); simpl;
    destruct (producer_url (call_promise d)) as [v |]; intro H; auto.
  - inversion H as [| ? ? Hnot Hnd]; subst. constructor; [| auto].
    intro Hin. apply Hnot. eapply pending_urls_filter_In; eauto.
  - inversion H; auto.
Qed.

(** The URL of a producer that resolved is held by no other outstanding
    producer. *)
Lemma pending_urls_settled k (l : list (Call Derived NoError Producer)) c f u :
  NoDup (pending_urls l) ->
  find (is_call k) l = Some c ->
  call_promise c = Decoding f u ->
  ~ In u (pending_urls (filter (fun c' => negb (is_call k c')) l)).
Proof.
  induction l as [| d l IH]; simpl; intros Hnd Hf Hp; [discriminate |].
  destruct (is_call k d) eqn:Ek; simpl.
  - injection Hf as ->. rewrite Hp in Hnd. simpl in Hnd.
    inversion Hnd as [| ? ? Hnot _]; subst.
    intro Hin. apply Hnot. eapply pending_urls_filter_In; eauto.
  - assert (Hu : In u (pending_urls l)).
    { apply find_some in Hf. eapply pending_urls_In; [apply Hf | exact Hp]. }
    destruct (producer_url (call_promise d)) as [v |]; simpl.
    + inversion Hnd as [| ? ? Hnot Hnd']; subst.
      intros [-> | Hin]; [contradiction | now apply (IH Hnd' Hf Hp)].
    + now apply IH.
Qed.

Lemma run_cleanup_cases previous now w :
  run_cleanup previous now w = w \/
  exists u0, previous = Some (Some u0) /\ now <> Some u0 /\
             run_cleanup previous now w = revokeObjectURL u0 w.
Proof.
  destruct previous as [[u0 |] |]; simpl; try (now left).
  - destruct now as [v |]; simpl.
    + destruct (Nat.eqb_spec u0 v) as [-> | Hne]; [now left |].
      right. exists u0. repeat split. congruence.
    + right. exists u0. repeat split. discriminate.
  - destruct now; now left.
Qed.

(** ** Every step preserves consistency *)

Lemma initial_consistent : consistent initial.
Proof.
  constructor; simpl; try discriminate; auto; repeat constructor.
Qed.

Lemma setImageBlob_consistent blob s :
  consistent s -> consistent (setImageBlob blob s).
Proof.
  intros [H1 H2 H3 H4 H5 H6 H7 H8]. constructor; assumption.
Qed.

Lemma commit_cleanups_consistent s :
  consistent s -> consistent (commit_cleanups s).
Proof.
  intros [H1 H2 H3 H4 H5 H6 H7 H8].
  destruct (run_cleanup_cases (preview s) (imageBlobUrl (result (memo s))) (urls s))
    as [Hw | (u0 & Hprev & Hne & Hw)].
  - constructor; unfold held, allocated, exposed in *; simpl; rewrite ?Hw;
      try assumption.
    intros u Hu. injection Hu as Hu. now apply H3.
  - destruct (H4 u0 Hprev) as [Hal Hnot].
    constructor; unfold held, allocated, exposed in *; simpl; rewrite ?Hw;
      simpl; try assumption.
    + rewrite app_assoc. now apply NoDup_snoc.
    + rewrite app_assoc. apply Forall_app. split; [assumption |].
      constructor; [assumption | constructor].
    + intros u Hu. destruct (H3 u Hu) as [Ha Hn]. split; [assumption |].
      rewrite app_assoc. intro Hin. apply in_app_or in Hin.
      destruct Hin as [Hin | [<- | []]]; [contradiction | congruence].
    + intros u Hu. injection Hu as Hu. destruct (H3 u Hu) as [Ha Hn].
      split; [assumption |].
      rewrite app_assoc. intro Hin. apply in_app_or in Hin.
      destruct Hin as [Hin | [<- | []]]; [contradiction | congruence].
Qed.

Lemma commit_cleanups_mounted s : mounted (commit_cleanups s) = mounted s.
Proof. reflexivity. Qed.

Lemma commit_effects_consistent s :
  mounted s = true -> consistent s -> consistent (commit_effects s).
Proof.
  intros Hm [H1 H2 H3 H4 H5 H6 H7 H8].
  unfold commit_effects.
  destruct (commit (memo_args s) (memo s, urls s)) as [m w] eqn:Hc.
  unfold commit in Hc. cbn [fst] in Hc.
  destruct (deps_changed (last_deps (memo s)) (signature (memo_args s))).
  - destruct (effect_inv _ _ _ Hc) as (Fr & Fd & Fi & Fp & Fw & Fn).
    specialize (Fn H5). simpl in Fr, Fd, Fp, Fw.
    apply NoDup_app_split in H1. destruct H1 as (HP & HR & Hdis).
    rewrite Forall_forall in H2.
    assert (HaP : forall u, In u (pending_urls (pending (memo s))) ->
                            u < next_url (urls s)).
    { intros u Hu. apply H2. apply in_or_app. now left. }
    assert (HaR : forall u, In u (revoked (urls s)) -> u < next_url (urls s)).
    { intros u Hu. apply H2. apply in_or_app. now right. }
    unfold producer in Fp, Fw.
    destruct (imageBlob s) as [f |]; simpl in Fp, Fw; subst w;
      constructor; unfold held, allocated, exposed in *; simpl;
      rewrite ?Fr, ?Fp, ?Fd, ?pending_urls_app; simpl;
      try assumption; try discriminate; try congruence.
    + apply NoDup_app_split. split; [| split; [assumption |]].
      * apply NoDup_snoc; [assumption |]. intro Hin. apply HaP in Hin. lia.
      * intros x Hx HxR. apply in_app_or in Hx.
        destruct Hx as [Hx | [<- | []]]; [now apply (Hdis x) |].
        apply HaR in HxR. lia.
    + rewrite Forall_forall. intros x Hx.
      apply in_app_or in Hx. destruct Hx as [Hx | Hx].
      * apply in_app_or in Hx. destruct Hx as [Hx | [<- | []]]; [| lia].
        apply HaP in Hx. lia.
      * apply HaR in Hx. lia.
    + intros u Hu. destruct (H4 u Hu) as [Ha Hn]. split; [lia |].
      intro Hin. apply in_app_or in Hin. destruct Hin as [Hin | Hin].
      * apply in_app_or in Hin. destruct Hin as [Hin | [<- | []]]; [| lia].
        apply Hn. apply in_or_app. now left.
      * apply Hn. apply in_or_app. now right.
    + apply Forall_app. split; [assumption |].
      constructor; [exact I | constructor].
    + intros sg Hsg. injection Hsg as <-. simpl. lia.
    + rewrite app_nil_r. now apply NoDup_app.
    + rewrite app_nil_r. rewrite Forall_forall. intros x Hx. now apply H2.
    + intros u Hu. rewrite app_nil_r. now apply H4.
    + apply Forall_app. split; [assumption |].
      constructor; [reflexivity | constructor].
    + intros sg Hsg. injection Hsg as <-. simpl. lia.
  - injection Hc as <- <-.
    constructor; unfold held, allocated, exposed in *; simpl; try assumption.
    intros sg Hsg. specialize (H7 sg Hsg). lia.
Qed.

Lemma render_consistent s :
  mounted s = true -> consistent s -> consistent (render s).
Proof.
  intros Hm H. unfold render. apply commit_effects_consistent.
  - now rewrite commit_cleanups_mounted.
  - now apply commit_cleanups_consistent.
Qed.

Lemma resolve_fields k s s' :
  resolve k s = Some s' ->
  exists c value,
    find (is_call k) (pending (memo s)) = Some c /\
    resolution (call_promise c) = Some value /\
    result (memo s') = value /\
    last_deps (memo s') = last_deps (memo s) /\
    issued (memo s') = issued (memo s) /\
    pending (memo s') =
      filter (fun c' => negb (is_call k c')) (pending (memo s)) /\
    settle k (Fulfilled value) (memo s) = Some (memo s') /\
    mounted s' = mounted s /\ imageBlob s' = imageBlob s /\
    preview s' = preview s /\ urls s' = urls s /\
    next_ident s' = next_ident s.
Proof.
  unfold resolve. intro H.
  destruct (find (is_call k) (pending (memo s))) as [c |] eqn:Hf;
    [| discriminate].
  destruct (resolution (call_promise c)) as [value |] eqn:Hr; [| discriminate].
  destruct (settle_fields k (Fulfilled (E := NoError) value) (memo s) Hf)
    as (m & Hs & F1 & F2 & F3 & F4).
  rewrite Hs in H. injection H as <-. simpl.
  exists c, value. repeat split; assumption.
Qed.

Lemma resolve_consistent k s s' :
  consistent s -> resolve k s = Some s' -> consistent s'.
Proof.
  intros [H1 H2 H3 H4 H5 H6 H7 H8] Hres.
  destruct (resolve_fields k s Hres)
    as (c & value & Hf & Hr & Fr & Fd & Fi & Fp & Fs & Fm & Fb & Fv & Fu & Fn).
  apply NoDup_app_split in H1. destruct H1 as (HP & HR & Hdis).
  rewrite Forall_forall in H2.
  constructor; unfold held, allocated, exposed in *;
    rewrite ?Fr, ?Fd, ?Fp, ?Fm, ?Fv, ?Fu, ?Fn.
  - apply NoDup_app_split. split; [now apply pending_urls_filter_NoDup |].
    split; [assumption |].
    intros x Hx. apply Hdis. eapply pending_urls_filter_In; eauto.
  - rewrite Forall_forall. intros x Hx. apply H2.
    apply in_app_or in Hx. apply in_or_app.
    destruct Hx as [Hx | Hx]; [left | now right].
    eapply pending_urls_filter_In; eauto.
  - intros u Hu.
    destruct (find_some _ _ Hf) as [Hin _].
    destruct (call_promise c) as [v | f u'] eqn:Hp; simpl in Hr.
    + rewrite Forall_forall in H6. specialize (H6 c Hin).
      unfold immediate_nothing in H6. rewrite Hp in H6.
      injection Hr as <-. subst v. discriminate.
    + destruct (file_natural_size f) as [size |]; [| discriminate].
      simpl in Hr. injection Hr as <-. simpl in Hu. injection Hu as <-.
      assert (HuP : In u' (pending_urls (pending (memo s)))).
      { eapply pending_urls_In; eauto. }
      split.
      * apply H2. apply in_or_app. now left.
      * intro Hx. apply in_app_or in Hx. destruct Hx as [Hx | Hx].
        -- revert Hx. eapply pending_urls_settled; eauto.
        -- now apply (Hdis u').
  - intros u Hu. destruct (H4 u Hu) as [Ha Hn]. split; [assumption |].
    intro Hx. apply Hn. apply in_app_or in Hx. apply in_or_app.
    destruct Hx as [Hx | Hx]; [left | now right].
    eapply pending_urls_filter_In; eauto.
  - eapply settle_well_numbered; eauto.
  - rewrite Forall_forall in *. intros x Hx. apply filter_In in Hx.
    now apply H6.
  - assumption.
  - intro Hm. rewrite (H8 Hm). reflexivity.
Qed.

Lemma unmount_consistent s : consistent s -> consistent (unmount s).
Proof.
  intros [H1 H2 H3 H4 H5 H6 H7 H8].
  apply NoDup_app_split in H1. destruct H1 as (HP & HR & Hdis).
  rewrite Forall_forall in H2.
  assert (HaR : forall u, In u (revoked (urls s)) -> u < next_url (urls s)).
  { intros u Hu. apply H2. apply in_or_app. now right. }
  constructor; unfold held, allocated, exposed in *; simpl;
    try discriminate; try assumption; try (intros; reflexivity);
    try apply mount_well_numbered; try constructor.
  - destruct (preview s) as [[u0 |] |] eqn:Hprev; simpl; try assumption.
    destruct (H4 u0 eq_refl) as [_ Hn].
    apply NoDup_snoc; [assumption |].
    intro Hin. apply Hn. apply in_or_app. now right.
  - rewrite Forall_forall.
    destruct (preview s) as [[u0 |] |] eqn:Hprev; simpl; try assumption.
    intros x Hx. apply in_app_or in Hx.
    destruct Hx as [Hx | [<- | []]]; [now apply HaR |].
    now destruct (H4 u0 eq_refl).
Qed.

Lemma step_consistent e s s' :
  consistent s -> step e s = Some s' -> consistent s'.
Proof.
  intros H Hs. unfold step in Hs.
  destruct (mounted s) eqn:Hm; [| discriminate].
  destruct e as [f | | | k |].
  - injection Hs as <-. now apply setImageBlob_consistent.
  - injection Hs as <-. now apply setImageBlob_consistent.
  - injection Hs as <-. now apply render_consistent.
  - eapply resolve_consistent; eauto.
  - injection Hs as <-. now apply unmount_consistent.
Qed.

Lemma run_consistent trace s s' :
  consistent s -> run trace s = Some s' -> consistent s'.
Proof.
  revert s. induction trace as [| e trace IH]; simpl; intros s H Hr.
  - now injection Hr as <-.
  - destruct (step e s) as [s1 |] eqn:Hs; [| discriminate].
    eapply IH; [| exact Hr]. eapply step_consistent; eauto.
Qed.

Lemma reachable_consistent s : reachable s -> consistent s.
Proof.
  intros [trace Hr]. eapply run_consistent; [apply initial_consistent | eauto].
Qed.

(** The effect of [useAsyncMemo] runs at every render of the session: the
    dependency array holds objects the render has just created. *)
Lemma deps_always_changed s :
  consistent s ->
  deps_changed (last_deps (memo s)) (signature (memo_args s)) = true.
Proof.
  intro H. unfold deps_changed.
  destruct (last_deps (memo s)) as [sg |] eqn:Hd; [| reflexivity].
  pose proof (refs_fresh H Hd) as Hlt.
  unfold same_signature. simpl.
  destruct (Nat.eqb_spec (sig_factory sg) (next_ident s)); [lia | reflexivity].
Qed.

Lemma render_fields s :
  consistent s ->
  let s' := render s in
  result (memo s') = nothing /\
  imageBlob s' = imageBlob s /\
  mounted s' = mounted s /\
  issued (memo s') = S (issued (memo s)) /\
  pending (memo s') =
    pending (memo s) ++
    [{| call_id := issued (memo s);
        call_promise :=
          snd (producer (imageBlob s)
                 (run_cleanup (preview s) (imageBlobUrl (result (memo s)))
                              (urls s)));
        call_onError := effective_errorState (memo_args s) |}].
Proof.
  intro H. pose proof (deps_always_changed H) as Hd.
  unfold render, commit_effects.
  destruct (commit (memo_args (commit_cleanups s))
                   (memo (commit_cleanups s), urls (commit_cleanups s)))
    as [m w] eqn:Hc.
  unfold commit in Hc. cbn [fst] in Hc.
  change (memo (commit_cleanups s)) with (memo s) in Hc.
  change (memo_args (commit_cleanups s)) with (memo_args s) in Hc.
  rewrite Hd in Hc.
  destruct (effect_inv _ _ _ Hc) as (Fr & _ & Fi & Fp & _ & _).
  simpl. repeat split; assumption.
Qed.

(** ** C1 *)

(** C1 (as the code has it).  The completion of a producer is never
    discarded: whatever the source file of the session is by then, the value
    the producer computed for the file [f] it captured becomes the reported
    state.  The state follows the order of completion; after several
    [replace] calls it shows the last file only if that file's producer is
    the last to complete. *)
Theorem completion_always_commits s c f u size :
  reachable s ->
  In c (pending (memo s)) ->
  call_promise c = Decoding f u ->
  file_natural_size f = Some size ->
  exists s',
    step (Resolve (call_id c)) s = Some s' /\
    exposed s' = derived_of f u size /\
    imageBlob s' = imageBlob s.
Proof.
  intros Hreach Hin Hp Hsize.
  pose proof (reachable_consistent Hreach) as Hc.
  destruct (calls_numbered Hc) as [Hnd _].
  pose proof (find_own_number (pending (memo s)) c Hnd Hin) as Hf.
  assert (Hm : mounted s = true).
  { destruct (mounted s) eqn:Hm; [reflexivity |].
    rewrite (unmounted_idle Hc Hm) in Hin. contradiction. }
  unfold step. rewrite Hm. unfold resolve. rewrite Hf, Hp. simpl.
  rewrite Hsize. simpl. unfold settle. rewrite Hf.
  eexists. split; [reflexivity |]. split; reflexivity.
Qed.

(** C1, counterexample.  Two files are given in turn; the producer of the
    second completes first and its result is committed; then the producer
    of the first, superseded file completes and overwrites that state: the
    session reports the metadata of [first] while its source is [second]. *)
Lemma stale_completion_overwrites :
  exists s s',
    run [Render; Resolve 0; Replace Samples.first; Render;
         Replace Samples.second; Render; Resolve 2] initial = Some s /\
    imageBlob s = Some Samples.second /\
    exposed s = derived_of Samples.second 1 (30, 40)%Z /\
    step (Resolve 1) s = Some s' /\
    imageBlob s' = Some Samples.second /\
    exposed s' = derived_of Samples.first 0 (10, 20)%Z.
Proof.
  eexists. eexists. split; [reflexivity |].
  split; [reflexivity |]. split; [reflexivity |].
  split; [reflexivity |]. split; reflexivity.
Qed.

(** ** C3 *)

Lemma commit_effects_revoked s :
  revoked (urls (commit_effects s)) = revoked (urls s).
Proof.
  unfold commit_effects, commit. cbn [fst].
  destruct (deps_changed (last_deps (memo s)) (signature (memo_args s)));
    [| reflexivity].
  unfold effect. simpl. unfold producer.
  destruct (imageBlob s); reflexivity.
Qed.

(** Only the cleanup of lines 68-73 revokes, and what it revokes is the URL
    the previous commit showed and this one no longer shows. *)
Lemma step_revokes e s s' :
  step e s = Some s' ->
  revoked (urls s') = revoked (urls s) \/
  exists u0, preview s = Some (Some u0) /\
             preview s' <> Some (Some u0) /\
             revoked (urls s') = revoked (urls s) ++ [u0].
Proof.
  unfold step. destruct (mounted s); [| discriminate].
  destruct e as [f | | | k |]; intro H.
  - injection H as <-. now left.
  - injection H as <-. now left.
  - injection H as <-. unfold render. rewrite commit_effects_revoked.
    simpl.
    destruct (run_cleanup_cases (preview s) (imageBlobUrl (result (memo s)))
                                (urls s)) as [-> | (u0 & Hp & Hne & ->)].
    + now left.
    + right. exists u0. repeat split; [assumption |].
      unfold commit_effects.
      destruct (commit _ _). simpl. congruence.
  - destruct (resolve_fields k s H)
      as (c & value & _ & _ & _ & _ & _ & _ & _ & _ & _ & _ & Fu & _).
    rewrite Fu. now left.
  - injection H as <-. simpl.
    destruct (preview s) as [[u0 |] |]; simpl; try (now left).
    right. exists u0. repeat split. discriminate.
Qed.

Lemma Url_eqb_eq a b : Url_eqb a b = true <-> a = b.
Proof.
  destruct a as [x |], b as [y |]; simpl; split; intro H;
    try discriminate; try reflexivity.
  - apply Nat.eqb_eq in H. now subst.
  - injection H as ->. apply Nat.eqb_refl.
Qed.

(** The URL a commit showed is revoked by the very step after which it is
    shown no more. *)
Lemma step_releases_shown e s s' u :
  step e s = Some s' ->
  preview s = Some (Some u) ->
  preview s' <> Some (Some u) ->
  In u (revoked (urls s')).
Proof.
  unfold step. destruct (mounted s); [| discriminate].
  destruct e as [f | | | k |]; intros H Hp Hp'.
  - injection H as <-. simpl in Hp'. contradiction.
  - injection H as <-. simpl in Hp'. contradiction.
  - injection H as <-. unfold render in *.
    rewrite commit_effects_revoked.
    unfold commit_cleanups, run_cleanup. cbn [urls]. rewrite Hp.
    destruct (Url_eqb (Some u) (imageBlobUrl (result (memo s)))) eqn:E.
    + exfalso. apply Hp'. apply Url_eqb_eq in E.
      unfold commit_effects. destruct (commit _ _). simpl. now rewrite <- E.
    + simpl. apply in_or_app. right. now left.
  - destruct (resolve_fields k s H)
      as (c & value & _ & _ & _ & _ & _ & _ & _ & _ & _ & Fv & _).
    rewrite Fv in Hp'. contradiction.
  - injection H as <-. simpl. rewrite Hp. simpl.
    apply in_or_app. right. now left.
Qed.

(** C3 (as the code has it).  In every reachable state of the session: no
    object URL has been revoked more than once; a revoked URL was allocated
    by the session and is neither the reported one, nor the one the last
    commit showed, nor held by an outstanding producer; the step that
    revokes a URL is a commit (or the teardown) before which the URL was the
    one shown and after which it is shown and reported no more; and a URL
    that was shown is revoked by the very step after which it is no longer
    shown.  A URL that is never shown is never revoked, so the number of
    releases of a URL is one or zero. *)
Theorem handle_released_at_most_once s :
  reachable s ->
  (forall u, count_occ Nat.eq_dec (revoked (urls s)) u <= 1) /\
  (forall u, In u (revoked (urls s)) ->
     allocated s u /\
     imageBlobUrl (exposed s) <> Some u /\
     preview s <> Some (Some u) /\
     ~ In u (pending_urls (pending (memo s)))) /\
  (forall e s' u,
     step e s = Some s' ->
     In u (revoked (urls s')) -> ~ In u (revoked (urls s)) ->
     preview s = Some (Some u) /\
     preview s' <> Some (Some u) /\
     imageBlobUrl (exposed s') <> Some u) /\
  (forall e s' u,
     step e s = Some s' ->
     preview s = Some (Some u) -> preview s' <> Some (Some u) ->
     In u (revoked (urls s'))).
Proof.
  intro Hreach. pose proof (reachable_consistent Hreach) as Hc.
  pose proof (held_once Hc) as Hnd.
  apply NoDup_app_split in Hnd. destruct Hnd as (HP & HR & Hdis).
  split; [| split; [| split]].
  - now apply NoDup_count_occ.
  - intros u Hu.
    assert (Hh : In u (held s)) by (apply in_or_app; now right).
    repeat split.
    + pose proof (held_allocated Hc) as Ha. rewrite Forall_forall in Ha.
      now apply Ha.
    + intro He. now destruct (exposed_apart Hc He).
    + intro Hp. now destruct (preview_apart Hc Hp).
    + intro Hp. now apply (Hdis u).
  - intros e s' u Hs Hin Hnot.
    pose proof (step_consistent e Hc Hs) as Hc'.
    destruct (step_revokes e s Hs) as [Heq | (u0 & Hp & Hp' & Heq)].
    + rewrite Heq in Hin. contradiction.
    + rewrite Heq in Hin. apply in_app_or in Hin.
      destruct Hin as [Hin | [<- | []]]; [contradiction |].
      repeat split; try assumption.
      intro He. destruct (exposed_apart Hc' He) as [_ Hn].
      apply Hn. apply in_or_app. right. rewrite Heq.
      apply in_or_app. right. now left.
  - intros e s' u. apply step_releases_shown.
Qed.

(** C3, counterexample.  A file is given, the producer allocates URL 0 and
    waits for the decoder, and the component is removed: URL 0 was
    allocated and, over the whole life of the session, released zero
    times. *)
Lemma handle_never_released :
  exists s,
    run [Render; Resolve 0; Replace Samples.first; Render; Unmount] initial = Some s /\
    mounted s = false /\
    allocated s 0 /\
    count_occ Nat.eq_dec (revoked (urls s)) 0 = 0.
Proof.
  eexists. split; [reflexivity |]. split; [reflexivity |].
  split; [unfold allocated; simpl; lia | reflexivity].
Qed.

(** ** C4 *)

Lemma supplied_more pre e f : supplied pre f -> supplied (pre ++ [e]) f.
Proof.
  unfold supplied. intro H. apply in_or_app. now left.
Qed.

Lemma sourced_more pre e s : sourced pre s -> sourced (pre ++ [e]) s.
Proof.
  intros [A B C]. constructor.
  - intros f Hf. now apply supplied_more, A.
  - intros c f u Hin Hp. apply supplied_more. eapply B; eauto.
  - destruct C as [C | (f & Hs & Hd)]; [now left |].
    right. exists f. split; [now apply supplied_more | assumption].
Qed.

Lemma initial_sourced : sourced [] initial.
Proof.
  constructor; simpl; try discriminate; try contradiction. now left.
Qed.

Lemma setImageBlob_sourced pre e blob s :
  (forall f, blob = Some f -> e = Replace f) ->
  sourced pre s -> sourced (pre ++ [e]) (setImageBlob blob s).
Proof.
  intros He H. destruct (sourced_more e H) as [A B C].
  constructor; simpl; try assumption.
  intros f Hf. rewrite (He f Hf). apply in_or_app. right. now left.
Qed.

Lemma render_sourced pre s :
  consistent s -> sourced pre s -> sourced (pre ++ [Render]) (render s).
Proof.
  intros Hc H. destruct (sourced_more Render H) as [A B C].
  destruct (render_fields Hc) as (Fr & Fb & _ & _ & Fp).
  constructor.
  - rewrite Fb. exact A.
  - rewrite Fp. intros c f u Hin Hp. apply in_app_or in Hin.
    destruct Hin as [Hin | [<- | []]]; [eapply B; eauto |].
    simpl in Hp. unfold producer in Hp.
    destruct (imageBlob s) as [f0 |] eqn:Hb; simpl in Hp; [| discriminate].
    injection Hp as <- _. now apply A.
  - left. exact Fr.
Qed.

Lemma resolve_sourced pre k s s' :
  consistent s -> sourced pre s -> resolve k s = Some s' ->
  sourced (pre ++ [Resolve k]) s'.
Proof.
  intros Hc H Hres. destruct (sourced_more (Resolve k) H) as [A B C].
  destruct (resolve_fields k s Hres)
    as (c & value & Hf & Hr & Fr & _ & _ & Fp & _ & _ & Fb & _).
  destruct (find_some _ _ Hf) as [Hin _].
  constructor.
  - rewrite Fb. exact A.
  - rewrite Fp. intros c' f u Hin' Hp. apply filter_In in Hin'.
    eapply B; [apply Hin' | exact Hp].
  - unfold exposed. rewrite Fr.
    destruct (call_promise c) as [v | f u] eqn:Hp; simpl in Hr.
    + pose proof (immediates Hc) as Hi. rewrite Forall_forall in Hi.
      specialize (Hi c Hin). unfold immediate_nothing in Hi.
      rewrite Hp in Hi. left. congruence.
    + destruct (file_natural_size f) as [size |] eqn:Hs; [| discriminate].
      simpl in Hr. injection Hr as <-.
      right. exists f. split; [eapply B; eauto |].
      exists u, size. now split.
Qed.

Lemma step_sourced pre e s s' :
  consistent s -> sourced pre s -> step e s = Some s' ->
  sourced (pre ++ [e]) s'.
Proof.
  intros Hc H Hs. unfold step in Hs.
  destruct (mounted s); [| discriminate].
  destruct e as [f | | | k |].
  - injection Hs as <-. apply setImageBlob_sourced; [| assumption].
    intros f' Hf. now injection Hf as ->.
  - injection Hs as <-. apply setImageBlob_sourced; [| assumption].
    discriminate.
  - injection Hs as <-. now apply render_sourced.
  - now apply resolve_sourced with (s := s).
  - injection Hs as <-.
    constructor; simpl; try discriminate; try contradiction. now left.
Qed.

Lemma run_sourced trace pre s s' :
  consistent s -> sourced pre s -> run trace s = Some s' ->
  sourced (pre ++ trace) s'.
Proof.
  revert pre s. induction trace as [| e trace IH]; simpl; intros pre s Hc H Hr.
  - injection Hr as <-. now rewrite app_nil_r.
  - destruct (step e s) as [s1 |] eqn:Hs; [| discriminate].
    replace (pre ++ e :: trace) with ((pre ++ [e]) ++ trace)
      by (now rewrite <- app_assoc).
    apply (IH (pre ++ [e]) s1); [| | exact Hr].
    + eapply step_consistent; eauto.
    + now apply step_sourced with (s := s).
Qed.

Lemma pending_urls_none (l : list (Call Derived NoError Producer)) c :
  pending_urls l = [] -> In c l ->
  exists value, call_promise c = Immediate value.
Proof.
  intros Hl Hin. destruct (call_promise c) as [v | f u] eqn:Hp.
  - now exists v.
  - pose proof (pending_urls_In l c Hin Hp) as Hu. rewrite Hl in Hu.
    contradiction.
Qed.

(** With no source file and no decoding under way, nothing but a new file
    can make the derived fields present again, and a render clears them. *)
Lemma idle_step e s s' :
  consistent s -> idle s -> no_input e -> step e s = Some s' ->
  idle s' /\ (e = Render \/ exposed s = nothing -> exposed s' = nothing).
Proof.
  intros Hc [Hb Hu] He Hs. unfold step in Hs.
  destruct (mounted s); [| discriminate].
  destruct e as [f | | | k |]; simpl in He.
  - contradiction.
  - injection Hs as <-. split; [now split |].
    intros [H | H]; [discriminate | exact H].
  - injection Hs as <-.
    destruct (render_fields Hc) as (Fr & Fb & _ & _ & Fp).
    split; [split |].
    + now rewrite Fb.
    + rewrite Fp, pending_urls_app, Hu, Hb. reflexivity.
    + intros _. exact Fr.
  - destruct (resolve_fields k s Hs)
      as (c & value & Hf & Hr & Fr & _ & _ & Fp & _ & _ & Fb & _).
    destruct (find_some _ _ Hf) as [Hin _].
    split; [split |].
    + now rewrite Fb.
    + rewrite Fp.
      destruct (pending_urls (filter _ (pending (memo s)))) as [| u l] eqn:E;
        [reflexivity |].
      assert (Hx : In u (pending_urls (pending (memo s)))).
      { eapply pending_urls_filter_In. rewrite E. now left. }
      rewrite Hu in Hx. contradiction.
    + intros _. unfold exposed. rewrite Fr.
      destruct (pending_urls_none _ c Hu Hin) as [v Hp].
      pose proof (immediates Hc) as Hi. rewrite Forall_forall in Hi.
      specialize (Hi c Hin). unfold immediate_nothing in Hi.
      rewrite Hp in Hi, Hr. simpl in Hr. congruence.
  - injection Hs as <-. split; [now split | reflexivity].
Qed.

Lemma idle_run trace s s' :
  consistent s -> idle s -> exposed s = nothing ->
  Forall no_input trace -> run trace s = Some s' ->
  exposed s' = nothing.
Proof.
  revert s. induction trace as [| e trace IH]; simpl; intros s Hc Hi Hn Hall Hr.
  - now injection Hr as <-.
  - destruct (step e s) as [s1 |] eqn:Hs; [| discriminate].
    inversion Hall as [| ? ? He Hall']; subst.
    destruct (idle_step e Hc Hi He Hs) as [Hi1 Hn1].
    apply (IH s1); auto. eapply step_consistent; eauto.
Qed.

Lemma cancel_clears s s1 rest s' :
  consistent s ->
  step Cancel s = Some s1 ->
  pending_urls (pending (memo s)) = [] ->
  Forall no_input rest ->
  run (Render :: rest) s1 = Some s' ->
  exposed s' = nothing.
Proof.
  intros Hc Hcancel Hu Hall Hrun.
  pose proof (step_consistent Cancel Hc Hcancel) as Hc1.
  assert (Hi1 : idle s1).
  { unfold step in Hcancel. destruct (mounted s); [| discriminate].
    injection Hcancel as <-. now split. }
  simpl in Hrun.
  destruct (step Render s1) as [s2 |] eqn:Hs2; [| discriminate].
  destruct (idle_step Render Hc1 Hi1 I Hs2) as [Hi2 Hn2].
  pose proof (step_consistent Render Hc1 Hs2) as Hc2.
  eapply idle_run; [exact Hc2 | exact Hi2 | | exact Hall | exact Hrun].
  apply Hn2. now left.
Qed.

(** C4 (as the code has it).  In every state the session reaches, the
    reported URL and metadata are both present or both absent.  When they
    are present they were computed from a file that was given to the session
    at some point of its history (it need not be the current source).  After
    [cancel], if no decoding is still under way, the next render leaves both
    absent and they stay absent as long as no new file is given. *)
Theorem derived_fields_paired trace s :
  run trace initial = Some s ->
  paired (exposed s) /\
  (forall m, imageMetadata (exposed s) = Some m ->
     exists f, supplied trace f /\ derived_from f (exposed s)) /\
  (forall s1 rest s',
     step Cancel s = Some s1 ->
     pending_urls (pending (memo s)) = [] ->
     Forall no_input rest ->
     run (Render :: rest) s1 = Some s' ->
     exposed s' = nothing).
Proof.
  intro Hr.
  pose proof (run_consistent trace initial_consistent Hr) as Hc.
  pose proof (run_sourced trace initial_consistent initial_sourced Hr) as Hs.
  simpl in Hs. destruct (exposed_supplied Hs) as [Hn | (f & Hf & Hd)].
  - split; [| split].
    + left. rewrite Hn. now split.
    + intros m Hm. rewrite Hn in Hm. discriminate.
    + intros s1 rest s'. now apply cancel_clears.
  - split; [| split].
    + right. destruct Hd as (u & size & _ & ->). simpl. eauto.
    + intros m _. exists f. now split.
    + intros s1 rest s'. now apply cancel_clears.
Qed.

(** C4, counterexample.  A file is given and its decoding starts; the
    session is cancelled and rendered; no further input arrives; the
    decoding completes.  The session then has no source file, yet URL and
    metadata are both present, computed from the cancelled file. *)
Lemma cancelled_file_reappears :
  exists s,
    run [Render; Resolve 0; Replace Samples.first; Render; Cancel; Render; Resolve 1]
        initial = Some s /\
    imageBlob s = None /\
    exposed s = derived_of Samples.first 0 (10, 20)%Z.
Proof.
  eexists. split; [reflexivity |]. split; reflexivity.
Qed.

End SessionFacts.

(* ================================================================== *)
(** * Properties of the rounded-border export                           *)
(* ================================================================== *)

Module RoundedFacts.
Import Canvas RoundedTool.
Local Open Scope Z_scope.
Local Arguments in_rect : simpl never.

Lemma draw_app host (a b : list Op) ctx :
  draw host (a ++ b) ctx = draw host b (draw host a ctx).
Proof.
  unfold draw. apply fold_left_app.
Qed.

Lemma draw_trace host (cmds : list PathCmd) ctx :
  draw host (map Trace cmds) ctx = with_path ctx (path ctx ++ cmds).
Proof.
  revert ctx. induction cmds as [| c cmds IH]; intro ctx.
  - destruct ctx. unfold with_path. simpl. now rewrite app_nil_r.
  - change (draw host (map Trace (c :: cmds)) ctx)
      with (draw host (map Trace cmds) (with_path ctx (path ctx ++ [c]))).
    rewrite IH. unfold with_path. simpl. now rewrite <- app_assoc.
Qed.



(** An opaque or fully transparent fill over a cleared pixel gives the
    fill colour. *)
Lemma fill_over_cleared host background :
  composites host ->
  source_over host (css_color background) transparent_black
  = css_color background.
Proof.
  intros [Hopaque Hclear].
  destruct background; simpl.
  - now apply Hopaque.
  - now apply Hopaque.
  - now apply Hclear.
Qed.

(** The canvas once the background is laid, before the path is traced. *)
Lemma background_laid host background width height px :
  composites host ->
  let ctx := draw host [ Save; ClearRect 0 0 width height;
                         SetFillStyle background;
                         FillRect 0 0 width height; BeginPath ]
                  (hidden_canvas width height px) in
  (forall i j, pixels ctx i j =
               if in_rect 0 0 width height i j
               then css_color background else px i j) /\
  clip_region ctx = [] /\
  path ctx = [] /\
  canvas_width ctx = width /\
  canvas_height ctx = height.
Proof.
  intros Hc ctx. subst ctx.
  unfold draw, hidden_canvas, canvasProps. simpl.
  repeat split.
  intros i j. unfold in_canvas. simpl.
  destruct (in_rect 0 0 width height i j); simpl; [| reflexivity].
  now apply fill_over_cleared.
Qed.

(** Clipping to the current path, drawing the image and restoring. *)
Lemma clipped_image host img dx dy dw dh ctx i j :
  clip_region ctx = [] ->
  pixels (draw host [Clip; DrawImage img dx dy dw dh; Restore] ctx) i j =
  if in_canvas ctx i j
  then edge host (coverage host (path ctx) i j)
         (source_over host (sample host img dx dy dw dh i j) (pixels ctx i j))
         (pixels ctx i j)
  else pixels ctx i j.
Proof.
  destruct ctx as [cw ch cpx style p clip st]. simpl. intros ->.
  unfold draw. simpl.
  destruct st as [| [style' clip'] rest]; simpl;
    unfold in_canvas; simpl;
    destruct (in_rect 0 0 cw ch i j); reflexivity.
Qed.

(** The pixels of an export. *)
Lemma exported_pixels host img radius background width height px i j :
  composites host ->
  pixels (exported host img radius background width height px) i j =
  if in_rect 0 0 width height i j
  then edge host (coverage host (rounded_path radius width height) i j)
         (source_over host
            (sample host img 0%Q 0%Q (inject_Z width) (inject_Z height) i j)
            (css_color background))
         (css_color background)
  else px i j.
Proof.
  intro Hc. unfold exported, onload.
  rewrite draw_app, draw_app, draw_trace.
  destruct (background_laid background width height px Hc)
    as (Hpx & Hclip & Hpath & Hw & Hh).
  set (ctx := draw host _ (hidden_canvas width height px)) in *.
  clearbody ctx.
  rewrite clipped_image by exact Hclip.
  unfold in_canvas. simpl. rewrite Hpath, Hw, Hh, Hpx. simpl.
  destruct (in_rect 0 0 width height i j); reflexivity.
Qed.

(** ** The rounded rectangle *)

(** The segments of the path of lines 68-78. *)
Lemma rounded_segments radius width height :
  let w := inject_Z width in
  let h := inject_Z height in
  segments (rounded_path radius width height) =
  [ Straight (radius, 0%Q) (Number.minus w radius, 0%Q);
    Curved (Number.minus w radius, 0%Q) (w, 0%Q) (w, radius);
    Straight (w, radius) (w, Number.minus h radius);
    Curved (w, Number.minus h radius) (w, h) (Number.minus w radius, h);
    Straight (Number.minus w radius, h) (radius, h);
    Curved (radius, h) (0%Q, h) (0%Q, Number.minus h radius);
    Straight (0%Q, Number.minus h radius) (0%Q, radius);
    Curved (0%Q, radius) (0%Q, 0%Q) (radius, 0%Q);
    Straight (radius, 0%Q) (radius, 0%Q);
    Straight (radius, 0%Q) (radius, 0%Q) ].
Proof.
  reflexivity.
Qed.

Ltac flatten :=
  unfold in_bulge, turns, chord, cross in *; cbn [fst snd] in *.

Lemma in_rect_bounds width height i j :
  in_rect 0 0 width height i j = true ->
  (0 <= inject_Z i /\ inject_Z i + 1 <= inject_Z width /\
   0 <= inject_Z j /\ inject_Z j + 1 <= inject_Z height)%Q.
Proof.
  unfold in_rect. rewrite !andb_true_iff, !Z.leb_le, !Z.ltb_lt.
  intros [[[Hi0 Hi1] Hj0] Hj1].
  change (inject_Z i + 1)%Q with (inject_Z i + inject_Z 1)%Q.
  change (inject_Z j + 1)%Q with (inject_Z j + inject_Z 1)%Q.
  change 0%Q with (inject_Z 0).
  rewrite <- !inject_Z_plus, <- !Zle_Qle. lia.
Qed.

Lemma scaled_sign (k z : Q) : (0 < k -> k * z <= 0 -> z <= 0)%Q.
Proof.
  intros Hk H. destruct (Qlt_le_dec 0 z) as [Hz | Hz]; [| exact Hz].
  exfalso. assert (0 < k * z)%Q by (apply Qmult_lt_0_compat; assumption). lra.
Qed.

Lemma positive_product (a b : Q) : (0 < a -> 0 < b -> 0 < a * b)%Q.
Proof.
  intros. now apply Qmult_lt_0_compat.
Qed.

(** A point that is nearer to both edges of a corner than a point of the
    cutout is not between the curve of that corner and its chord. *)
Lemma bulge_excluded (r a b dx dy : Q) :
  (0 < r -> 0 <= a -> a <= dx -> 0 <= b -> b <= dy ->
   cutout r dx dy ->
   ~ (r * (r - a - b)) * (r * (r - a - b)) <= 4 * (r * a) * (r * b))%Q.
Proof.
  intros Hr Ha Hadx Hb Hbdy [H1 H2] Hc.
  assert (Hrr : (0 < r * r)%Q) by (apply Qmult_lt_0_compat; assumption).
  assert (E1 : ((r - a - b) * (r - a - b) - 4 * a * b <= 0)%Q).
  { apply (scaled_sign Hrr). lra. }
  assert (E2 : (a * b <= dx * dy)%Q).
  { assert (0 <= (dx - a) * b)%Q by (apply Qmult_le_0_compat; lra).
    assert (0 <= dx * (dy - b))%Q by (apply Qmult_le_0_compat; lra).
    lra. }
  assert (E3 : ((r - dx - dy) * (r - dx - dy)
                <= (r - a - b) * (r - a - b))%Q).
  { assert (0 <= ((r - a - b) - (r - dx - dy))
                 * ((r - a - b) + (r - dx - dy)))%Q
      by (apply Qmult_le_0_compat; lra).
    lra. }
  lra.
Qed.

(** No point of a pixel of a corner cutout can be in the region of the
    path: the line through the two ends of the corner's curve has the points
    of the path on its other side, and the curve passes between the pixel
    and that line. *)
Lemma cutout_not_enclosed radius width height i j pt :
  exact_differences radius width height ->
  (0 < radius)%Q ->
  (2 * radius <= inject_Z width)%Q ->
  (2 * radius <= inject_Z height)%Q ->
  in_rect 0 0 width height i j = true ->
  in_cutout radius width height i j ->
  in_pixel i j pt ->
  ~ may_enclose (rounded_path radius width height) pt.
Proof.
  intros [Hwr Hhr] Hr Hw Hh Hin Hcut [[Hx0 Hx1] [Hy0 Hy1]] Hm.
  destruct pt as [x y]. cbn [fst snd] in *.
  destruct (in_rect_bounds _ _ _ _ Hin) as (Hi0 & Hi1 & Hj0 & Hj1).
  clear Hin.
  unfold may_enclose in Hm. rewrite rounded_segments in Hm.
  cbn [map chord fst snd] in Hm.
  unfold in_cutout, cutout in Hcut.
  set (w := inject_Z width) in *. set (h := inject_Z height) in *.
  set (xi := inject_Z i) in *. set (yj := inject_Z j) in *.
  set (wr := Number.minus w radius) in *.
  set (hr := Number.minus h radius) in *.
  clearbody wr hr w h xi yj.
  destruct Hm as [Hhull | Hb].
  - unfold within_hull in Hhull. cbn [fst snd] in Hhull.
    destruct Hcut as [[H1 H2] | [[H1 H2] | [[H1 H2] | [H1 H2]]]].
    + specialize (Hhull 1 1 (- radius))%Q.
      assert (0 <= 1 * x + 1 * y + - radius)%Q
        by (apply Hhull; repeat constructor; cbn [fst snd]; lra).
      lra.
    + specialize (Hhull (-1) 1 (w - radius))%Q.
      assert (0 <= -1 * x + 1 * y + (w - radius))%Q
        by (apply Hhull; repeat constructor; cbn [fst snd]; lra).
      lra.
    + specialize (Hhull (-1) (-1) (w + h - radius))%Q.
      assert (0 <= -1 * x + -1 * y + (w + h - radius))%Q
        by (apply Hhull; repeat constructor; cbn [fst snd]; lra).
      lra.
    + specialize (Hhull 1 (-1) (h - radius))%Q.
      assert (0 <= 1 * x + -1 * y + (h - radius))%Q
        by (apply Hhull; repeat constructor; cbn [fst snd]; lra).
      lra.
  - repeat (apply Exists_cons in Hb; destruct Hb as [Hb | Hb]);
      try (apply Exists_nil in Hb; contradiction);
      flatten; try contradiction.
    all: destruct Hb as (Hd & Hu & Hv & Ht & Hc).
    all: rewrite ?Hwr, ?Hhr in Hd, Hu, Hv, Ht, Hc.
    all: destruct Hcut as [[H1 H2] | [[H1 H2] | [[H1 H2] | [H1 H2]]]].
    all: try nra.
    + exfalso.
      apply (@bulge_excluded radius (w - x) y (w - xi) (yj + 1))%Q;
        try lra; split; assumption.
    + exfalso.
      apply (@bulge_excluded radius (w - x) (h - y) (w - xi) (h - yj))%Q;
        try lra; split; assumption.
    + exfalso.
      apply (@bulge_excluded radius x (h - y) (xi + 1) (h - yj))%Q;
        try lra; split; assumption.
    + exfalso.
      apply (@bulge_excluded radius x y (xi + 1) (yj + 1))%Q;
        try lra; split; assumption.
Qed.

(** Every point of a pixel of the cross is in the region of the path: the
    eight chords turn around it in one direction, and it is between no
    curve and its chord. *)
Lemma cross_enclosed radius width height i j pt :
  exact_differences radius width height ->
  (0 < radius)%Q ->
  (2 * radius <= inject_Z width)%Q ->
  (2 * radius <= inject_Z height)%Q ->
  in_cross radius width height i j ->
  in_pixel i j pt ->
  surely_enclosed (rounded_path radius width height) pt.
Proof.
  intros [Hwr Hhr] Hr Hw Hh Hin [[Hx0 Hx1] [Hy0 Hy1]].
  destruct pt as [x y]. cbn [fst snd] in *.
  unfold surely_enclosed. rewrite rounded_segments.
  unfold in_cross in Hin.
  set (w := inject_Z width) in *. set (h := inject_Z height) in *.
  set (xi := inject_Z i) in *. set (yj := inject_Z j) in *.
  set (wr := Number.minus w radius) in *.
  set (hr := Number.minus h radius) in *.
  clearbody wr hr w h xi yj.
  assert (Hx : (0 < x /\ x < w /\ 0 < y /\ y < h)%Q) by (destruct Hin; lra).
  assert (Hband : (radius <= x /\ x <= w - radius)%Q \/
                  (radius <= y /\ y <= h - radius)%Q) by (destruct Hin; lra).
  clear Hin Hx0 Hx1 Hy0 Hy1 xi yj.
  destruct Hx as (Hx0 & Hx1 & Hy0 & Hy1).
  assert (P1 : (0 <= (w - 2 * radius) * y)%Q)
    by (apply Qmult_le_0_compat; lra).
  assert (P2 : (0 <= (w - 2 * radius) * (h - y))%Q)
    by (apply Qmult_le_0_compat; lra).
  assert (P3 : (0 <= (h - 2 * radius) * x)%Q)
    by (apply Qmult_le_0_compat; lra).
  assert (P4 : (0 <= (h - 2 * radius) * (w - x))%Q)
    by (apply Qmult_le_0_compat; lra).
  assert (C1 : (0 < radius * (y + (w - radius - x)))%Q)
    by (apply positive_product; destruct Hband; lra).
  assert (C2 : (0 < radius * ((h - radius - y) + (w - x)))%Q)
    by (apply positive_product; destruct Hband; lra).
  assert (C3 : (0 < radius * ((h - y) + (x - radius)))%Q)
    by (apply positive_product; destruct Hband; lra).
  assert (C4 : (0 < radius * (y + x - radius))%Q)
    by (apply positive_product; destruct Hband; lra).
  assert (Hrr : (0 < radius * radius)%Q) by now apply positive_product.
  assert (S1 : (2 * radius < w -> 0 < (w - 2 * radius) * y /\
                                  0 < (w - 2 * radius) * (h - y))%Q)
    by (intro; split; apply positive_product; lra).
  assert (S2 : (2 * radius < h -> 0 < (h - 2 * radius) * x /\
                                  0 < (h - 2 * radius) * (w - x))%Q)
    by (intro; split; apply positive_product; lra).
  assert (B1 : (0 < radius * radius * (radius * (y + (w - radius - x))))%Q)
    by now apply positive_product.
  assert (B2 : (0 < radius * radius
                    * (radius * ((h - radius - y) + (w - x))))%Q)
    by now apply positive_product.
  assert (B3 : (0 < radius * radius * (radius * ((h - y) + (x - radius))))%Q)
    by now apply positive_product.
  assert (B4 : (0 < radius * radius * (radius * (y + x - radius)))%Q)
    by now apply positive_product.
  split; [| split].
  - exists true.
    repeat (apply Forall_cons || apply Forall_nil); flatten;
      rewrite ?Hwr, ?Hhr; (split; [lra |]).
    + destruct (Qlt_le_dec (2 * radius) w) as [H | H];
        [right; destruct (S1 H); lra | left; split; lra].
    + right; lra.
    + destruct (Qlt_le_dec (2 * radius) h) as [H | H];
        [right; destruct (S2 H); lra | left; split; lra].
    + right; lra.
    + destruct (Qlt_le_dec (2 * radius) w) as [H | H];
        [right; destruct (S1 H); lra | left; split; lra].
    + right; lra.
    + destruct (Qlt_le_dec (2 * radius) h) as [H | H];
        [right; destruct (S2 H); lra | left; split; lra].
    + right; lra.
    + left; split; lra.
    + left; split; lra.
  - apply Exists_cons_tl, Exists_cons_hd. flatten. rewrite ?Hwr, ?Hhr. lra.
  - repeat (apply Forall_cons || apply Forall_nil); flatten;
      match goal with
      | |- ~ False => intros []
      | |- _ =>
          intros (Hd & Hu & Hv & Ht & Hc);
          rewrite ?Hwr, ?Hhr in Hd, Hu, Hv, Ht, Hc; lra
      end.
Qed.

(** The corner of the canvas is not in the region of the path: the chords
    of the two curves next to it turn around it in opposite directions. *)
Lemma corner_point_outside radius width height :
  exact_differences radius width height ->
  (0 < radius)%Q ->
  (2 * radius <= inject_Z width)%Q ->
  ~ surely_enclosed (rounded_path radius width height) (0%Q, 0%Q).
Proof.
  intros [Hwr Hhr] Hr Hw [[positive Hf] _].
  rewrite rounded_segments in Hf.
  set (w := inject_Z width) in *.
  set (wr := Number.minus w radius) in *.
  set (hr := Number.minus (inject_Z height) radius) in *.
  clearbody wr hr w.
  assert (Hrr : (0 < radius * radius)%Q) by now apply positive_product.
  assert (Hpos : (0 < (w - radius) * radius)%Q)
    by (apply positive_product; lra).
  apply Forall_inv_tail in Hf. apply Forall_inv in Hf as Hright.
  do 6 apply Forall_inv_tail in Hf. apply Forall_inv in Hf as Hleft.
  flatten. destruct positive; rewrite Hwr in Hright; lra.
Qed.

(** C5 (as the code has it).  On a host whose compositing obeys the two
    laws of [source-over], for every image, radius and background, and every
    pixel of the canvas: the exported pixel is the image composited over the
    background, as far as the clip lets the image through, the background
    having been filled over the whole canvas first.  A pixel outside the
    clip path is therefore the background colour: alpha 0 for
    ["transparent"], opaque white or black for ["white"] and ["black"].  A
    pixel the clip covers whole is the image over the background: the image
    where the image is opaque, and the background again where the image is
    fully transparent, so that the background does not show in the cutouts
    only.  Where the host follows the path at the pixel, for a radius
    [0 < radius] that is at most half the width and half the height and is
    subtracted from them without rounding, the pixels of the four corner
    cutouts are outside the clip, and the pixels of the cross between the
    corners are covered whole. *)
Theorem corner_pixels_show_background
    host img radius background width height px i j :
  composites host ->
  in_rect 0 0 width height i j = true ->
  let p := pixels (exported host img radius background width height px) i j in
  let image_pixel :=
    sample host img 0%Q 0%Q (inject_Z width) (inject_Z height) i j in
  let fill :=
    match background with
    | transparent => {| red := 0; green := 0; blue := 0; alpha := 0 |}
    | white => {| red := 255; green := 255; blue := 255; alpha := 255 |}
    | black => {| red := 0; green := 0; blue := 0; alpha := 255 |}
    end in
  let clip := coverage host (rounded_path radius width height) i j in
  p = edge host clip (source_over host image_pixel fill) fill /\
  (clip = Outside -> p = fill) /\
  (clip = Whole ->
   p = source_over host image_pixel fill /\
   (alpha image_pixel = 255 -> p = image_pixel) /\
   (alpha image_pixel = 0 -> p = fill)) /\
  (honours host (rounded_path radius width height) i j ->
   exact_differences radius width height ->
   (0 < radius)%Q ->
   (2 * radius <= inject_Z width)%Q ->
   (2 * radius <= inject_Z height)%Q ->
   (in_cutout radius width height i j -> clip = Outside) /\
   (in_cross radius width height i j -> clip = Whole)).
Proof.
  intros Hc Hin p image_pixel fill clip.
  assert (Hfill : css_color background = fill)
    by (destruct background; reflexivity).
  assert (Hp : p = edge host clip (source_over host image_pixel fill) fill).
  { subst p image_pixel clip.
    rewrite (exported_pixels img radius background width height px i j Hc).
    now rewrite Hin, Hfill. }
  split; [exact Hp |]. split; [| split].
  - intro Hout. rewrite Hp, Hout. reflexivity.
  - intro Hwhole. rewrite Hwhole in Hp. simpl in Hp.
    split; [exact Hp |]. destruct Hc as [Hopaque Hclear].
    split; intro Ha; rewrite Hp; [now apply Hopaque | now apply Hclear].
  - intros [Hout Hwhole] Hex Hr Hw Hh. split.
    + intro Hcut. subst clip.
      destruct (coverage host (rounded_path radius width height) i j)
        as [| share |] eqn:Hcov; [reflexivity | |].
      * destruct Hout as (pt & Hpt & Hm); [discriminate |].
        now destruct (cutout_not_enclosed Hex Hr Hw Hh Hin Hcut Hpt).
      * destruct Hout as (pt & Hpt & Hm); [discriminate |].
        now destruct (cutout_not_enclosed Hex Hr Hw Hh Hin Hcut Hpt).
    + intro Hcross. apply Hwhole. intros pt Hpt.
      exact (cross_enclosed Hex Hr Hw Hh Hcross Hpt).
Qed.

(** C5, counterexample.  A 16 x 16 image that is transparent throughout is
    exported with radius 4 on a white background.  Pixel (8, 8) lies in the
    cross, in no corner cutout, the host covers it whole as the path
    demands, and it is exported white: the background shows in the middle
    of the picture. *)
Lemma background_shows_through_image :
  composites Samples.glass_host /\
  honours Samples.glass_host (rounded_path 4%Q 16 16) 8 8 /\
  exact_differences 4%Q 16 16 /\
  in_cross 4%Q 16 16 8 8 /\
  ~ in_cutout 4%Q 16 16 8 8 /\
  pixels (exported Samples.glass_host Samples.poster 4%Q white 16 16
            (fun _ _ => transparent_black)) 8 8
  = {| red := 255; green := 255; blue := 255; alpha := 255 |}.
Proof.
  split; [| split; [| split; [| split; [| split]]]].
  - split; intros s d Ha; simpl; rewrite Ha; reflexivity.
  - split; [| reflexivity].
    intros _. exists (8%Q, 8%Q). split.
    + unfold in_pixel. cbn [fst snd]. vm_compute. intuition discriminate.
    + left. intros a b c Hv. cbn [fst snd].
      apply Forall_inv in Hv as H1.
      do 4 apply Forall_inv_tail in Hv. apply Forall_inv in Hv as H2.
      cbn [fst snd chord] in H1, H2.
      change (Number.minus (inject_Z 16) 4) with 12%Q in H2.
      unfold inject_Z in H1, H2. lra.
  - split; reflexivity.
  - left. vm_compute. intuition discriminate.
  - unfold in_cutout, cutout. vm_compute. intuition discriminate.
  - reflexivity.
Qed.



End RoundedFacts.

(* ================================================================== *)
(** * Properties of numbers                                             *)
(* ================================================================== *)

Module NumberFacts.
Import Number Canvas.
Local Open Scope Z_scope.







End NumberFacts.

(* ================================================================== *)
(** * Properties of the SVG export                                      *)
(* ================================================================== *)

Module SvgFacts.
Import Number NumberFacts Canvas SvgTool.
Local Open Scope Z_scope.
Local Arguments in_rect : simpl never.








(** A product of doubles is rounded to a double: three times
    0.3333333333333333 is 1, and the canvas is one pixel wide.  A width
    above 2147483647 is not taken: a 40000000 x 1 image at scale 64 gets the
    default width.  A width that is written with an exponent is read up to
    the exponent: at scale 0.0000001 a 1 x 1 image gets a 1 x 1 bitmap. *)
Lemma sizes_at_the_limits :
  scaled 3 3 (3333333333333333 # 10000000000000000)%Q = (1%Q, 1%Q) /\
  raster_size 3 3 (3333333333333333 # 10000000000000000)%Q = (1, 1) /\
  raster_size 40000000 1 64 = (300, 64) /\
  raster_size 1 1 (1 # 10000000)%Q = (1, 1) /\
  raster_size 1 1 (1 # 1000000)%Q = (0, 0).
Proof.
  repeat split; vm_compute; reflexivity.
Qed.

Lemma replace_first_extension (base : string) :
  dotless base = true ->
  Pipeline.replace_first ".svg" "" (base ++ ".svg") = base.
Proof.
  induction base as [| c rest IH]; intro Hd; [reflexivity |].
  simpl in Hd. apply andb_prop in Hd. destruct Hd as [Hc Hrest].
  change ((String c rest ++ ".svg")%string)
    with (String c (rest ++ ".svg")%string).
  unfold Pipeline.replace_first; fold Pipeline.replace_first.
  cbn [String.prefix].
  destruct (ascii_dec "." c) as [<- | _]; [discriminate Hc |].
  now rewrite (IH Hrest).
Qed.

Lemma last_dot_extension (base : string) :
  last_dot (base ++ ".svg") = Some (String.length base).
Proof.
  induction base as [| c rest IH]; [reflexivity |].
  change ((String c rest ++ ".svg")%string)
    with (String c (rest ++ ".svg")%string).
  simpl. now rewrite IH.
Qed.

Lemma substring_prefix (base tail : string) :
  substring 0 (String.length base) (base ++ tail) = base.
Proof.
  induction base as [| c rest IH]; simpl.
  - now destruct tail.
  - now rewrite IH.
Qed.

(** Where the only dot of the name is that of its [.svg] extension, the
    code names the download as the specification says. *)
Lemma names_agree_without_inner_dot
    (numberToString : Q -> string) (base : string) (scale : Q) :
  dotless base = true ->
  download_name numberToString (base ++ ".svg") scale
  = specified_name numberToString (base ++ ".svg") scale.
Proof.
  intro Hd. unfold download_name, specified_name, basename.
  now rewrite (replace_first_extension base Hd), last_dot_extension,
    substring_prefix.
Qed.

(** C8 (evaluation).  For a source named [my.svg-icons.svg] the code
    removes the first [.svg] it finds, not the extension: the download is
    named [my-icons.svg-2x.png], where the name without its extension
    followed by the scale would be [my.svg-icons-2x.png].  For [LOGO.SVG]
    it removes nothing.  For [logo.svg] code and specification agree. *)
Theorem first_svg_occurrence_removed (numberToString : Q -> string) :
  download_name numberToString "my.svg-icons.svg" 2%Q
    = ("my-icons.svg-" ++ numberToString 2%Q ++ "x.png")%string /\
  specified_name numberToString "my.svg-icons.svg" 2%Q
    = ("my.svg-icons-" ++ numberToString 2%Q ++ "x.png")%string /\
  download_name numberToString "my.svg-icons.svg" 2%Q
    <> specified_name numberToString "my.svg-icons.svg" 2%Q /\
  download_name numberToString "LOGO.SVG" 2%Q
    = ("LOGO.SVG-" ++ numberToString 2%Q ++ "x.png")%string /\
  download_name numberToString "logo.svg" 2%Q
    = specified_name numberToString "logo.svg" 2%Q.
Proof.
  split; [reflexivity |]. split; [reflexivity |].
  split; [| split; reflexivity].
  unfold download_name, specified_name. simpl. discriminate.
Qed.

End SvgFacts.

(* ================================================================== *)
(** * How an export ends                                                *)
(* ================================================================== *)

Module PipelineFacts.
Import Canvas Pipeline.

Lemma getContext_canvas env :
  getContext env = true -> exists c, canvas env = Some c /\ context2d c = true.
Proof.
  unfold getContext. destruct (canvas env) as [c |]; [| discriminate].
  intro H. now exists c.
Qed.

(** The shared [convertToPng] behaves as described, whatever it draws and
    however the download is named. *)
Lemma convertToPng_behaviour ops download env :
  export_behaviour env download (convertToPng ops download env).
Proof.
  unfold convertToPng, saveImage, getContext.
  destruct env as [[[ctx blob] |] loads]; simpl;
    [destruct ctx, loads, blob as [b |] | destruct loads];
    constructor; unfold blob_missing, blob_made; simpl;
    try reflexivity; try discriminate;
    try (intros [H | H]; exfalso; apply H; reflexivity);
    try (split; [discriminate | intros (H1 & H2 & H3); discriminate]);
    try (split; [reflexivity | reflexivity]);
    try (split; [discriminate | discriminate]).
  - split; [discriminate |].
    intros (_ & _ & c & Hc & Hb). injection Hc as <-. discriminate Hb.
  - split; [intros _ | reflexivity].
    repeat split. eexists. eexists. split; reflexivity.
  - split; [intros _ | reflexivity].
    repeat split. eexists. split; reflexivity.
  - split; [discriminate |].
    intros (_ & _ & c & b & Hc & Hb). injection Hc as <-. discriminate Hb.
Qed.

(** C9 (as the code has it).  For both tools, and whatever the canvas and
    the image do: the promise [convertToPng] returns is rejected, with the
    context error, exactly when there is no 2D context, and is fulfilled
    otherwise; the encode error is the rejection of the promise of
    [saveImage], which the pipeline discards, and arises exactly when there
    is a context, the image loads and [toBlob] gives no blob; a download is
    triggered exactly when there is a context, the image loads and a blob
    is made, so no failure leaves a file behind. *)
Theorem export_fails_without_file
    (numberToString : Q -> string) img radius background width height
    name scale env :
  export_behaviour env (RoundedTool.download_name name)
    (RoundedTool.convertToPng img radius background width height name env) /\
  export_behaviour env (SvgTool.download_name numberToString name scale)
    (SvgTool.convertToPng numberToString img width height name scale env).
Proof.
  split; apply convertToPng_behaviour.
Qed.

(** C9, counterexample.  The canvas has a context, the image loads, and
    [toBlob] passes [null]: the promise returned by [convertToPng] is
    fulfilled all the same, in both tools; the encode error only rejects
    the promise of [saveImage]. *)
Lemma encode_error_not_returned :
  returned (RoundedTool.convertToPng Samples.picture 8%Q white 4%Z 4%Z
              "photo.png"%string Samples.no_blob) = Fulfilled /\
  saved (RoundedTool.convertToPng Samples.picture 8%Q white 4%Z 4%Z
           "photo.png"%string Samples.no_blob) = Some (Rejected encode_error) /\
  returned (SvgTool.convertToPng (fun _ => "2"%string) Samples.picture 4%Z 4%Z
              "logo.svg"%string 2%Q Samples.no_blob) = Fulfilled /\
  saved (SvgTool.convertToPng (fun _ => "2"%string) Samples.picture 4%Z 4%Z
           "logo.svg"%string 2%Q Samples.no_blob) = Some (Rejected encode_error).
Proof.
  repeat split.
Qed.

End PipelineFacts.

(* ================================================================== *)
(** * What enters the SVG tool                                          *)
(* ================================================================== *)

Module IntakeFacts.
Import UploadSession Intake.

(** C10 (evaluation).  A PNG file matches no entry of the SVG tool's
    allowlist.  Chosen in the file input, it becomes the source of the
    session, because [handleFileUploadEvent] does not look at the type;
    pasted, it becomes the source as well, because the paste bridge is
    registered with the allowlist of [useFileUploader], which contains
    [image/*], and not with the tool's. *)
Theorem svg_tool_takes_png :
  allowed svg_acceptedFileTypes Samples.photo = false /\
  imageBlob (handleFileUploadEvent [Samples.photo] initial)
    = Some Samples.photo /\
  In "image/*"%string paste_acceptedFileTypes /\
  allowed paste_acceptedFileTypes Samples.photo = true /\
  imageBlob (paste [Samples.photo] initial) = Some Samples.photo.
Proof.
  split; [reflexivity |]. split; [reflexivity |].
  split; [now left |]. split; reflexivity.
Qed.

End IntakeFacts.

(* ================================================================== *)
(** * The theorems at work on concrete inputs                           *)
(* ================================================================== *)

Module Instances.
Import UseAsyncMemo UploadSession SessionInvariants.

(** C2 at work: a call issued with a handler measuring the message is
    rejected with a message of six characters; the hook reports 6. *)
Lemma rejection_reports_errorState_witness :
  exists h3,
    settle 0 (Rejected "failed"%string)
           (fst (effect Samples.measuring (mount 0, tt))) = Some h3 /\
    result h3 = 6.
Proof.
  destruct (HookFacts.rejection_reports_errorState
              Samples.measuring (mount 0)
              (fst (effect Samples.measuring (mount 0, tt)))
              tt "failed"%string) as [_ H].
  destruct H as (h3 & Hs & Hr & _).
  - split; simpl.
    + constructor; [intros [] | constructor].
    + constructor; [simpl; lia | constructor].
  - simpl. left. reflexivity.
  - exists h3. split; [exact Hs | exact Hr].
Defined.

(** C1 at work: after two files were given in turn, the producer of the
    first one completes and its result is committed. *)
Lemma completion_always_commits_witness :
  match run [Render; Resolve 0; Replace Samples.first; Render;
             Replace Samples.second; Render] initial with
  | Some s =>
      exists s',
        step (Resolve 1) s = Some s' /\
        exposed s' = derived_of Samples.first 0 (10, 20)%Z /\
        imageBlob s' = imageBlob s
  | None => False
  end.
Proof.
  destruct (run [Render; Resolve 0; Replace Samples.first; Render;
                 Replace Samples.second; Render] initial) as [s |] eqn:Hr;
    [| vm_compute in Hr; discriminate Hr].
  assert (Hreach : reachable s) by (eexists; exact Hr).
  vm_compute in Hr. injection Hr as Hs.
  apply (SessionFacts.completion_always_commits
           Samples.slow_call (f := Samples.first) (u := 0)
           (size := (10, 20)%Z) Hreach).
  - rewrite <- Hs. simpl. left. reflexivity.
  - reflexivity.
  - reflexivity.
Defined.

(** C3 at work: a URL that was shown and then replaced has been revoked,
    once, and is reported no more. *)
Lemma handle_released_at_most_once_witness :
  match run [Render; Resolve 0; Replace Samples.first; Render; Resolve 1;
             Render; Render] initial with
  | Some s =>
      In 0 (revoked (urls s)) /\
      count_occ Nat.eq_dec (revoked (urls s)) 0 <= 1 /\
      imageBlobUrl (exposed s) <> Some 0
  | None => False
  end.
Proof.
  destruct (run [Render; Resolve 0; Replace Samples.first; Render; Resolve 1;
                 Render; Render] initial) as [s |] eqn:Hr;
    [| vm_compute in Hr; discriminate Hr].
  assert (Hreach : reachable s) by (eexists; exact Hr).
  destruct (SessionFacts.handle_released_at_most_once Hreach)
    as (Hcount & Hfree & _ & _).
  vm_compute in Hr. injection Hr as Hs.
  assert (Hin : In 0 (revoked (urls s))).
  { rewrite <- Hs. simpl. left. reflexivity. }
  split; [exact Hin |]. split; [apply Hcount |].
  now destruct (Hfree 0 Hin) as (_ & H & _).
Defined.

(** C4 at work: once the decoding of a file has completed, both fields are
    present and the file is one that was given. *)
Lemma derived_fields_paired_witness :
  match run [Render; Resolve 0; Replace Samples.first; Render; Resolve 1] initial with
  | Some s =>
      paired (exposed s) /\
      exists f, supplied [Render; Resolve 0; Replace Samples.first; Render; Resolve 1] f
                /\ derived_from f (exposed s)
  | None => False
  end.
Proof.
  destruct (run [Render; Resolve 0; Replace Samples.first; Render; Resolve 1] initial)
    as [s |] eqn:Hr; [| vm_compute in Hr; discriminate Hr].
  destruct (SessionFacts.derived_fields_paired _ Hr) as (Hpair & Hfrom & _).
  split; [exact Hpair |].
  vm_compute in Hr. injection Hr as Hs.
  apply (Hfrom {| width := 10; height := 20; name := "first.png" |}).
  rewrite <- Hs. reflexivity.
Defined.

(** C5 at work: a 16 x 16 image is exported with radius 8 on a transparent
    background.  The top left pixel lies in the cutout of its corner and
    ends with alpha 0, whatever the canvas held before. *)
Lemma corner_pixels_show_background_witness :
  Canvas.alpha
    (Canvas.pixels
       (RoundedTool.exported Samples.plain_host Samples.poster 8%Q
          Canvas.transparent 16 16 (fun _ _ => Canvas.css_color Canvas.white))
       0%Z 0%Z) = 0%Z.
Proof.
  destruct (@RoundedFacts.corner_pixels_show_background
              Samples.plain_host Samples.poster 8%Q Canvas.transparent
              16%Z 16%Z (fun _ _ => Canvas.css_color Canvas.white) 0%Z 0%Z)
    as (_ & Hout & _ & Hpath).
  - split; intros s d Ha; simpl; rewrite Ha; reflexivity.
  - reflexivity.
  - rewrite Hout; [reflexivity |].
    destruct Hpath as [Hcut _].
    + split.
      * intro Hcov. now contradiction Hcov.
      * intro Hall. exfalso.
        apply (@RoundedFacts.corner_point_outside 8%Q 16%Z 16%Z).
        -- split; reflexivity.
        -- reflexivity.
        -- discriminate.
        -- apply Hall. unfold Canvas.in_pixel. cbn [fst snd].
           repeat split; discriminate.
    + split; reflexivity.
    + reflexivity.
    + discriminate.
    + discriminate.
    + apply Hcut. left. split; reflexivity.
Defined.


End Instances.

(* ================================================================== *)
(** * Further properties of useAsyncMemo                                *)
(* ================================================================== *)

Module HookMore.
Import UseAsyncMemo HookFacts HookReferences.

(** X1.  After a render with arguments [a] ran the effect, the next render,
    with arguments [a'], leaves the hook alone exactly when [factory],
    [loadingState], the [deps] array and the error handler are the same
    objects as before; leaving [errorState] out does not count as a change.
    Otherwise it reports [loadingState], calls [factory] once and adds that
    one call to the outstanding ones. *)
Theorem effect_reruns_iff_reference_changed
    {V E P W : Type} (a a' : Args V E P W) (h : Hook V E P) (w w' : W) :
  let h1 := fst (effect a (h, w)) in
  let stable := factory_id a = factory_id a' /\
                loadingState_id a = loadingState_id a' /\
                deps_id a = deps_id a' /\
                same_handler a a' in
  (stable -> commit a' (h1, w') = (h1, w')) /\
  (~ stable ->
   let h2 := fst (commit a' (h1, w')) in
   result h2 = loadingState a' /\
   issued h2 = S (issued h1) /\
   snd (commit a' (h1, w')) = fst (factory a' w') /\
   exists c, pending h2 = pending h1 ++ [c] /\
             call_promise c = snd (factory a' w') /\
             call_onError c = effective_errorState a').
Proof.
  intros h1 stable.
  destruct (effect_fields a h w) as (_ & Hd & _).
  fold h1 in Hd.
  assert (Hiff : deps_changed (last_deps h1) (signature a') = false <-> stable).
  { rewrite Hd. unfold deps_changed, same_signature, signature; simpl.
    rewrite negb_false_iff, !andb_true_iff, !Nat.eqb_eq, HandlerRef_eqb_eq.
    unfold stable. tauto. }
  split.
  - intro Hs. apply commit_unchanged. now apply Hiff.
  - intros Hn h2. subst h2. unfold commit. cbn [fst].
    destruct (deps_changed (last_deps h1) (signature a')) eqn:Hc.
    + destruct (effect_fields a' h1 w') as (F1 & _ & F3 & F4 & F5).
      repeat split; try assumption.
      eexists. split; [exact F4 |]. split; reflexivity.
    + exfalso. apply Hn. now apply Hiff.
Qed.

End HookMore.

(* ================================================================== *)
(** * Further properties of the upload session                          *)
(* ================================================================== *)

Module SessionMore.
Import UseAsyncMemo UploadSession SessionInvariants HookFacts SessionFacts.

Lemma run_cleanup_next_url previous now w :
  next_url (run_cleanup previous now w) = next_url w.
Proof.
  destruct (run_cleanup_cases previous now w) as [-> | (u0 & _ & _ & ->)];
    reflexivity.
Qed.

(** What a render does to the object URLs. *)
Lemma render_urls s :
  consistent s ->
  next_url (urls (render s)) =
    match imageBlob s with
    | Some _ => S (next_url (urls s))
    | None => next_url (urls s)
    end /\
  revoked (urls (render s)) =
    revoked (run_cleanup (preview s) (imageBlobUrl (result (memo s)))
                         (urls s)).
Proof.
  intro H. pose proof (deps_always_changed H) as Hd.
  unfold render, commit_effects.
  destruct (commit (memo_args (commit_cleanups s))
                   (memo (commit_cleanups s), urls (commit_cleanups s)))
    as [m w] eqn:Hc.
  unfold commit in Hc. cbn [fst] in Hc.
  change (memo (commit_cleanups s)) with (memo s) in Hc.
  change (memo_args (commit_cleanups s)) with (memo_args s) in Hc.
  rewrite Hd in Hc.
  destruct (effect_inv _ _ _ Hc) as (_ & _ & _ & _ & Fw & _).
  simpl in Fw. simpl. subst w. unfold producer.
  destruct (imageBlob s); simpl; rewrite ?run_cleanup_next_url; now split.
Qed.

(** X2.  In every reachable state of a mounted session a render restarts
    the derivation: the reported value goes back to both fields absent,
    the producer is called exactly once more, and an object URL is
    allocated exactly when there is a source file. *)
Theorem render_restarts_derivation s :
  reachable s ->
  mounted s = true ->
  exists s',
    step Render s = Some s' /\
    exposed s' = nothing /\
    issued (memo s') = S (issued (memo s)) /\
    List.length (pending (memo s')) = S (List.length (pending (memo s))) /\
    next_url (urls s') =
      match imageBlob s with
      | Some _ => S (next_url (urls s))
      | None => next_url (urls s)
      end.
Proof.
  intros Hreach Hm. pose proof (reachable_consistent Hreach) as Hc.
  exists (render s). unfold step. rewrite Hm.
  destruct (render_fields Hc) as (Fr & _ & _ & Fi & Fp).
  destruct (render_urls Hc) as [Fu _].
  repeat split; try assumption.
  rewrite Fp, List.length_app. simpl. lia.
Qed.

Lemma find_past {A : Type} (p : A -> bool) (l l' : list A) :
  (forall x, In x l -> p x = false) -> find p (l ++ l') = find p l'.
Proof.
  induction l as [| a l IH]; simpl; intro H; [reflexivity |].
  rewrite (H a (or_introl eq_refl)). apply IH. intros x Hx. apply H.
  now right.
Qed.

Lemma newest_call_found s :
  consistent s ->
  exists c,
    find (is_call (issued (memo s))) (pending (memo (render s))) = Some c /\
    call_promise c =
      snd (producer (imageBlob s)
             (run_cleanup (preview s) (imageBlobUrl (result (memo s)))
                          (urls s))).
Proof.
  intro Hc.
  assert (Hm : consistent (commit_cleanups s))
    by now apply commit_cleanups_consistent.
  destruct (render_fields Hc) as (_ & _ & _ & _ & Fp).
  destruct (calls_numbered Hc) as [_ Hlt].
  exists {| call_id := issued (memo s);
            call_promise :=
              snd (producer (imageBlob s)
                     (run_cleanup (preview s)
                        (imageBlobUrl (result (memo s))) (urls s)));
            call_onError := effective_errorState (memo_args s) |}.
  split; [| reflexivity].
  rewrite Fp. rewrite find_past.
  - simpl. unfold is_call. simpl. now rewrite Nat.eqb_refl.
  - intros c Hin.
    rewrite Forall_forall in Hlt. specialize (Hlt c Hin).
    unfold is_call. apply Nat.eqb_neq. lia.
Qed.

(** X3.  The upload works when nothing interferes: in any reachable state
    of a mounted session, a file selection whose first file decodes,
    followed by a render and by the completion of the producer that render
    started, makes that file the source and reports a newly allocated URL
    with the file's natural size and name; the other files selected are
    ignored. *)
Theorem selected_file_is_reported s f others size :
  reachable s ->
  mounted s = true ->
  file_natural_size f = Some size ->
  exists s',
    run [Render; Resolve (issued (memo s))]
        (Intake.handleFileUploadEvent (f :: others) s) = Some s' /\
    imageBlob s' = Some f /\
    exposed s' = derived_of f (next_url (urls s)) size.
Proof.
  intros Hreach Hm Hsize.
  pose proof (reachable_consistent Hreach) as Hc.
  set (s1 := setImageBlob (Some f) s).
  assert (Hc1 : consistent s1) by now apply setImageBlob_consistent.
  destruct (newest_call_found Hc1) as (c & Hf & Hp).
  change (Intake.handleFileUploadEvent (f :: others) s) with s1.
  unfold run, step. change (mounted s1) with (mounted s). rewrite Hm.
  destruct (render_fields Hc1) as (_ & Fb & Fm & _).
  rewrite Fm. change (mounted s1) with (mounted s). rewrite Hm.
  unfold resolve. change (issued (memo s1)) with (issued (memo s)) in Hf.
  rewrite Hf, Hp. simpl. rewrite Hsize. simpl.
  unfold settle. rewrite Hf. eexists. split; [reflexivity |].
  simpl. split; [exact Fb |].
  now rewrite run_cleanup_next_url.
Qed.

(** While nothing is reported and nothing was shown, a render of a session
    with a source file allocates and revokes nothing. *)
Lemma render_piles_up s f :
  consistent s -> mounted s = true ->
  imageBlob s = Some f ->
  exposed s = nothing ->
  (preview s = None \/ preview s = Some None) ->
  consistent (render s) /\ mounted (render s) = true /\
  imageBlob (render s) = Some f /\
  exposed (render s) = nothing /\
  preview (render s) = Some None /\
  next_url (urls (render s)) = S (next_url (urls s)) /\
  revoked (urls (render s)) = revoked (urls s) /\
  List.length (pending (memo (render s))) = S (List.length (pending (memo s))).
Proof.
  intros Hc Hm Hb He Hp.
  destruct (render_fields Hc) as (Fr & Fb & Fm & _ & Fp).
  destruct (render_urls Hc) as [Fu Fv].
  unfold exposed in *.
  split; [now apply render_consistent |].
  split; [congruence |]. split; [congruence |]. split; [exact Fr |].
  split; [| split; [| split]].
  - unfold render, commit_effects. destruct (commit _ _). simpl.
    now rewrite He.
  - now rewrite Fu, Hb.
  - rewrite Fv, He. simpl.
    destruct Hp as [-> | ->]; reflexivity.
  - rewrite Fp, List.length_app. simpl. lia.
Qed.

Lemma run_app trace trace' s :
  run (trace ++ trace') s =
  match run trace s with
  | Some s1 => run trace' s1
  | None => None
  end.
Proof.
  revert s. induction trace as [| e trace IH]; intro s; simpl;
    [reflexivity |].
  destruct (step e s); [apply IH | reflexivity].
Qed.

Lemma renders_pile_up n s f :
  consistent s -> mounted s = true ->
  imageBlob s = Some f ->
  exposed s = nothing ->
  (preview s = None \/ preview s = Some None) ->
  exists s',
    run (repeat Render n) s = Some s' /\
    exposed s' = nothing /\
    next_url (urls s') = n + next_url (urls s) /\
    revoked (urls s') = revoked (urls s) /\
    List.length (pending_urls (pending (memo s')))
    = n + List.length (pending_urls (pending (memo s))).
Proof.
  revert s. induction n as [| n IH]; intros s Hc Hm Hb He Hp.
  - exists s. repeat split; assumption.
  - destruct (render_piles_up Hc Hm Hb He Hp)
      as (Hc' & Hm' & Hb' & He' & Hp' & Fu & Fv & _).
    destruct (IH (render s) Hc' Hm' Hb' He' (or_intror Hp'))
      as (s' & Hr & He2 & Fu2 & Fv2 & Fl2).
    exists s'. simpl. unfold step. rewrite Hm.
    split; [exact Hr |]. split; [exact He2 |].
    split; [lia |]. split; [congruence |].
    rewrite Fl2.
    destruct (render_fields Hc) as (_ & _ & _ & _ & Fp).
    rewrite Fp, pending_urls_app, List.length_app, Hb. simpl. lia.
Qed.

(** X4.  Object URLs pile up while decoding is slow: for every file and
    every [n], after the file is given and the session renders [n] times
    without any producer completing in between, [n] URLs have been
    allocated for that one file, [n] decodings of it are under way, and not
    one URL has been revoked. *)
Theorem urls_pile_up_while_decoding (f : File) (n : nat) :
  exists s,
    run (Render :: Resolve 0 :: Replace f :: repeat Render n) initial
      = Some s /\
    next_url (urls s) = n /\
    List.length (pending_urls (pending (memo s))) = n /\
    revoked (urls s) = [] /\
    exposed s = nothing.
Proof.
  destruct (run [Render; Resolve 0; Replace f] initial) as [s0 |] eqn:Hrun;
    [| discriminate Hrun].
  assert (Hc : consistent s0)
    by (eapply run_consistent; [apply initial_consistent | exact Hrun]).
  injection Hrun as Hs0.
  assert (Hfacts : mounted s0 = true /\ imageBlob s0 = Some f /\
                   exposed s0 = nothing /\ preview s0 = Some None /\
                   next_url (urls s0) = 0 /\ revoked (urls s0) = [] /\
                   pending_urls (pending (memo s0)) = []).
  { rewrite <- Hs0. repeat split. }
  destruct Hfacts as (Hm & Hb & He & Hp & Fu0 & Fv0 & Fl0).
  destruct (renders_pile_up n Hc Hm Hb He (or_intror Hp))
    as (s' & Hr & He' & Fu & Fv & Fl).
  exists s'.
  change (Render :: Resolve 0 :: Replace f :: repeat Render n)
    with ([Render; Resolve 0; Replace f] ++ repeat Render n).
  rewrite run_app.
  replace (run [Render; Resolve 0; Replace f] initial) with (Some s0)
    by (now rewrite <- Hs0).
  rewrite Fu0 in Fu. rewrite Fl0 in Fl. simpl in Fl.
  rewrite Nat.add_0_r in Fu, Fl.
  repeat split; try assumption. congruence.
Qed.

(** X5.  A file that the browser cannot decode is never reported: if no
    file given to the session decodes, both fields are absent in every
    state the session reaches (it stays in its loading state, and no error
    is reported either). *)
Theorem undecodable_files_stay_loading trace s :
  run trace initial = Some s ->
  (forall f, supplied trace f -> file_natural_size f = None) ->
  exposed s = nothing.
Proof.
  intros Hr Hnone.
  pose proof (run_sourced trace initial_consistent initial_sourced Hr) as Hs.
  simpl in Hs.
  destruct (exposed_supplied Hs) as [Hn | (f & Hf & u & size & Hsize & _)];
    [exact Hn |].
  rewrite (Hnone f Hf) in Hsize. discriminate.
Qed.

(** X6.  In every state the session reaches, the two tools agree on
    whether to show the upload box although they test different fields,
    and when the SVG editor is shown the URL it hands to the save button is
    a real one: the fallback to the empty string is never taken. *)
Theorem editors_get_a_url s :
  reachable s ->
  RoundedControls.shows_upload_box (exposed s)
    = SvgControls.shows_upload_box (exposed s) /\
  (SvgControls.shows_upload_box (exposed s) = false ->
   exists u, SvgControls.button_url (exposed s) = SvgControls.BlobUrl u /\
             imageBlobUrl (exposed s) = Some u).
Proof.
  intros [trace Hr].
  pose proof (run_sourced trace initial_consistent initial_sourced Hr) as Hs.
  simpl in Hs.
  unfold RoundedControls.shows_upload_box, SvgControls.shows_upload_box,
    SvgControls.button_url.
  destruct (exposed_supplied Hs) as [-> | (f & _ & u & size & _ & ->)]; simpl.
  - split; [reflexivity | discriminate].
  - split; [reflexivity |]. intros _. now exists u.
Qed.

End SessionMore.

(* ================================================================== *)
(** * How the downloads are named                                       *)
(* ================================================================== *)

Module NameFacts.
Import Pipeline SvgTool SvgFacts.
Local Open Scope string_scope.

Lemma append_cons (c : ascii) (s t : string) :
  String c s ++ t = String c (s ++ t).
Proof. reflexivity. Qed.

Lemma dotless_head c s :
  dotless (String c s) = true -> Ascii.eqb c "." = false /\ dotless s = true.
Proof.
  simpl. intro H. apply andb_prop in H. destruct H as [Hc Hs].
  split; [now apply negb_true_iff | exact Hs].
Qed.

Lemma strip_extension_dotless (s : string) :
  dotless s = true -> RoundedTool.strip_extension s = s.
Proof.
  induction s as [| c s IH]; intro H; [reflexivity |].
  apply dotless_head in H. destruct H as [Hc Hs].
  simpl. rewrite Hc. simpl. now rewrite (IH Hs).
Qed.

Lemma strip_extension_cut (base rest : string) :
  dotless base = true -> rest <> "" -> RoundedTool.one_line rest = true ->
  RoundedTool.strip_extension (base ++ "." ++ rest) = base.
Proof.
  intros Hb Hr Hl. induction base as [| c base IH].
  - change ("" ++ "." ++ rest) with (String "." rest).
    cbn [RoundedTool.strip_extension]. rewrite Hl.
    destruct (String.eqb_spec rest ""); [contradiction | reflexivity].
  - apply dotless_head in Hb. destruct Hb as [Hc Hb].
    rewrite append_cons. cbn [RoundedTool.strip_extension].
    rewrite Hc. cbn [andb]. now rewrite (IH Hb).
Qed.

Lemma strip_extension_trailing_dot (base : string) :
  dotless base = true ->
  RoundedTool.strip_extension (base ++ ".") = base ++ ".".
Proof.
  intro Hb. induction base as [| c base IH]; [reflexivity |].
  apply dotless_head in Hb. destruct Hb as [Hc Hb].
  rewrite append_cons. cbn [RoundedTool.strip_extension].
  rewrite Hc. cbn [andb]. now rewrite (IH Hb).
Qed.

Lemma append_assoc (a b c : string) : (a ++ b) ++ c = a ++ b ++ c.
Proof.
  induction a as [| x a IH]; [reflexivity |].
  rewrite !append_cons. now rewrite IH.
Qed.

(** A dot that has a line terminator somewhere after it is kept, and the
    search goes on behind it. *)
Lemma strip_extension_past (base rest : string) :
  dotless base = true -> RoundedTool.one_line rest = false ->
  RoundedTool.strip_extension (base ++ "." ++ rest)
  = base ++ "." ++ RoundedTool.strip_extension rest.
Proof.
  intros Hb Hl. induction base as [| c base IH].
  - change ("" ++ "." ++ rest) with (String "." rest).
    cbn [RoundedTool.strip_extension]. rewrite Hl, andb_false_r. reflexivity.
  - apply dotless_head in Hb. destruct Hb as [Hc Hb].
    rewrite append_cons. cbn [RoundedTool.strip_extension].
    rewrite Hc. cbn [andb]. now rewrite (IH Hb).
Qed.

Lemma strip_extension_separator (s : string) :
  RoundedTool.strip_extension (RoundedTool.line_separator ++ s)
  = RoundedTool.line_separator ++ RoundedTool.strip_extension s.
Proof.
  reflexivity.
Qed.

Lemma separator_breaks_line (s : string) :
  RoundedTool.one_line (RoundedTool.line_separator ++ s) = false.
Proof.
  destruct s; reflexivity.
Qed.

(** X7.  The rounded-border tool names its download by cutting the source
    name at its first dot and appending [.png]: every extension of a name
    such as [photo.tar.gz] goes, not only the last; a name without a dot is
    kept whole; and a name that ends in its only dot keeps that dot.  The
    cut needs one line after the dot: where a line separator (U+2028)
    follows the first dot, that dot stays and the name is cut at the next
    one. *)
Theorem rounded_name_cut_at_first_dot (base rest : string) :
  dotless base = true ->
  rest <> "" ->
  RoundedTool.one_line rest = true ->
  RoundedTool.download_name (base ++ "." ++ rest) = base ++ ".png" /\
  RoundedTool.download_name base = base ++ ".png" /\
  RoundedTool.download_name (base ++ ".") = base ++ "..png" /\
  RoundedTool.download_name
    (base ++ "." ++ RoundedTool.line_separator ++ base ++ "." ++ rest)
  = base ++ "." ++ RoundedTool.line_separator ++ base ++ ".png".
Proof.
  intros Hb Hr Hl. unfold RoundedTool.download_name.
  rewrite (@strip_extension_cut base rest Hb Hr Hl),
    (@strip_extension_dotless base Hb), (@strip_extension_trailing_dot base Hb).
  split; [reflexivity |]. split; [reflexivity |].
  split; [apply append_assoc |].
  rewrite (@strip_extension_past base _ Hb (separator_breaks_line _)).
  rewrite strip_extension_separator,
    (@strip_extension_cut base rest Hb Hr Hl).
  now rewrite !append_assoc.
Qed.

Lemma replace_first_absent (s : string) :
  dotless s = true -> replace_first ".svg" "" s = s.
Proof.
  induction s as [| c s IH]; intro H; [reflexivity |].
  apply dotless_head in H. destruct H as [Hc Hs].
  unfold replace_first; fold replace_first. cbn [String.prefix].
  destruct (ascii_dec "." c) as [<- | _]; [discriminate Hc |].
  now rewrite (IH Hs).
Qed.

Lemma replace_first_other_extension (base ext : string) :
  dotless base = true -> dotless ext = true ->
  String.prefix "svg" ext = false ->
  replace_first ".svg" "" (base ++ "." ++ ext) = base ++ "." ++ ext.
Proof.
  intros Hb He Hp. induction base as [| c base IH].
  - change ("" ++ "." ++ ext) with (String "." ext).
    unfold replace_first; fold replace_first. cbn [String.prefix].
    destruct (ascii_dec "." ".") as [_ | Hne]; [| now contradiction Hne].
    rewrite Hp. now rewrite (@replace_first_absent ext He).
  - apply dotless_head in Hb. destruct Hb as [Hc Hb].
    rewrite append_cons.
    unfold replace_first; fold replace_first. cbn [String.prefix].
    destruct (ascii_dec "." c) as [<- | _]; [discriminate Hc |].
    now rewrite (IH Hb).
Qed.

(** X8.  The SVG tool names its download after the source: for a name
    whose only dot is that of its [.svg] extension the extension is
    replaced by [-{scale}x.png]; a name without a dot, or with one other
    extension that does not begin with [svg], is kept whole, extension
    included, before [-{scale}x.png]. *)
Theorem svg_name_of_plain_sources
    (numberToString : Q -> string) (base ext : string) (scale : Q) :
  dotless base = true ->
  dotless ext = true ->
  String.prefix "svg" ext = false ->
  download_name numberToString (base ++ ".svg") scale
    = base ++ "-" ++ numberToString scale ++ "x.png" /\
  download_name numberToString base scale
    = base ++ "-" ++ numberToString scale ++ "x.png" /\
  download_name numberToString (base ++ "." ++ ext) scale
    = (base ++ "." ++ ext) ++ "-" ++ numberToString scale ++ "x.png".
Proof.
  intros Hb He Hp. unfold download_name.
  rewrite (@replace_first_extension base Hb), (@replace_first_absent base Hb),
    (@replace_first_other_extension base ext Hb He Hp).
  repeat split.
Qed.

End NameFacts.

(* ================================================================== *)
(** * Further properties of the drawings                                *)
(* ================================================================== *)

Module DrawingMore.
Import Canvas RoundedFacts.
Local Open Scope Z_scope.
Local Arguments in_rect : simpl never.

(** The drawing of the rounded-border export on any context of the right
    size that is not clipped: its pixels, and the drawing state it leaves. *)
Lemma rounded_onload_on host img radius background width height ctx :
  composites host ->
  clip_region ctx = [] ->
  canvas_width ctx = width ->
  canvas_height ctx = height ->
  let ctx' :=
    draw host (RoundedTool.onload img radius background width height) ctx in
  (forall i j,
     pixels ctx' i j =
     if in_rect 0 0 width height i j
     then edge host
            (coverage host (RoundedTool.rounded_path radius width height) i j)
            (source_over host
               (sample host img 0%Q 0%Q (inject_Z width) (inject_Z height)
                       i j)
               (css_color background))
            (css_color background)
     else pixels ctx i j) /\
  clip_region ctx' = [] /\
  fillStyle ctx' = fillStyle ctx /\
  stack ctx' = stack ctx /\
  canvas_width ctx' = width /\
  canvas_height ctx' = height.
Proof.
  intros Hc Hclip Hw Hh.
  destruct ctx as [cw ch px style p clip st]. simpl in Hclip, Hw, Hh.
  subst clip cw ch. cbv zeta.
  unfold RoundedTool.onload. rewrite draw_app, draw_app, draw_trace.
  set (laid := draw host
                 [Save; ClearRect 0 0 width height; SetFillStyle background;
                  FillRect 0 0 width height; BeginPath] _).
  assert (Hlaid : laid =
            {| canvas_width := width; canvas_height := height;
               pixels := fun i j =>
                 if in_rect 0 0 width height i j
                       && in_rect 0 0 width height i j
                 then source_over host (css_color background)
                        (if in_rect 0 0 width height i j
                              && in_rect 0 0 width height i j
                         then transparent_black else px i j)
                 else if in_rect 0 0 width height i j
                            && in_rect 0 0 width height i j
                      then transparent_black else px i j;
               fillStyle := css_color background;
               path := [];
               clip_region := [];
               stack := (style, []) :: st |}) by reflexivity.
  clearbody laid. subst laid.
  split.
  - intros i j. rewrite clipped_image by reflexivity.
    unfold in_canvas. simpl.
    destruct (in_rect 0 0 width height i j); simpl; [| reflexivity].
    now rewrite (fill_over_cleared background Hc).
  - unfold draw. simpl. repeat split.
Qed.

(** X9.  An export of the rounded-border tool leaves the context as it
    found it (fill style, clip region, stack of saved states), so that the
    clip does not add up from one export to the next: on every pixel of the
    canvas, a second export on the same canvas, with any other radius,
    background or image, gives what it would give on a canvas never used
    before. *)
Theorem exports_do_not_interfere
    host img img' radius radius' background background' width height
    px px' i j :
  composites host ->
  in_rect 0 0 width height i j = true ->
  let first := RoundedTool.exported host img radius background width height
                 px in
  clip_region first = [] /\
  fillStyle first = fillStyle (RoundedTool.hidden_canvas width height px) /\
  stack first = [] /\
  pixels (draw host (RoundedTool.onload img' radius' background' width height)
               first) i j
  = pixels (RoundedTool.exported host img' radius' background' width height
              px') i j.
Proof.
  intros Hc Hin first.
  unfold RoundedTool.exported in first. subst first.
  pose proof (@rounded_onload_on host img radius background width height
                (RoundedTool.hidden_canvas width height px) Hc
                eq_refl eq_refl eq_refl) as H.
  cbv zeta in H.
  set (first := draw host
                  (RoundedTool.onload img radius background width height)
                  (RoundedTool.hidden_canvas width height px)) in *.
  clearbody first.
  destruct H as (_ & Hclip & Hstyle & Hstack & Hw & Hh).
  split; [exact Hclip |]. split; [exact Hstyle |]. split; [exact Hstack |].
  destruct (@rounded_onload_on host img' radius' background' width height
              first Hc Hclip Hw Hh) as (Hpx & _).
  rewrite Hpx, Hin.
  rewrite (@exported_pixels host img' radius' background' width height px'
             i j Hc).
  now rewrite Hin.
Qed.

(** X10.  The SVG export lays no background: on every pixel of its canvas
    the result is the scaled image composited over a cleared, fully
    transparent pixel, whatever the canvas held before; so where the image
    is fully transparent the export is fully transparent, and where it is
    opaque the export is the image. *)
Theorem svg_keeps_transparency host img width height scale px i j :
  composites host ->
  in_rect 0 0 (fst (SvgTool.raster_size width height scale))
              (snd (SvgTool.raster_size width height scale)) i j = true ->
  let drawn := sample host img 0%Q 0%Q
                 (fst (SvgTool.scaled width height scale))
                 (snd (SvgTool.scaled width height scale)) i j in
  let p := pixels (SvgTool.exported host img width height scale px) i j in
  p = source_over host drawn transparent_black /\
  (alpha drawn = 0 -> p = transparent_black) /\
  (alpha drawn = 255 -> p = drawn).
Proof.
  intros [Hopaque Hclear] Hin drawn p. subst p drawn.
  unfold SvgTool.exported, SvgTool.onload, SvgTool.hidden_canvas.
  set (size := SvgTool.raster_size width height scale) in *. clearbody size.
  set (dest := SvgTool.scaled width height scale) in *. clearbody dest.
  unfold draw. simpl. unfold in_canvas. simpl. rewrite Hin. simpl.
  split; [reflexivity |]. split; intro Ha.
  - now apply Hclear.
  - now apply Hopaque.
Qed.

End DrawingMore.

(* ================================================================== *)
(** * Properties of the controls                                        *)
(* ================================================================== *)

Module ControlFacts.

(** X11.  In the rounded-border tool the selector shows what was chosen
    last: after [handleRadiusChange value] the selected entry is [value].
    Choosing ["custom"] keeps the radius; choosing a preset overwrites it,
    so a radius typed earlier is gone when ["custom"] is chosen again; a
    radius typed in custom mode is the radius used and leaves the mode
    on. *)
Theorem radius_selector_round_trip
    (value : RoundedControls.RadiusChoice) (preset typed : Q)
    (c : RoundedControls.Controls) :
  RoundedControls.selected (RoundedControls.handleRadiusChange value c)
    = value /\
  RoundedControls.radius
    (RoundedControls.handleRadiusChange RoundedControls.CustomRadius c)
    = RoundedControls.radius c /\
  RoundedControls.radius
    (RoundedControls.handleRadiusChange RoundedControls.CustomRadius
       (RoundedControls.handleRadiusChange
          (RoundedControls.PresetRadius preset) c))
    = preset /\
  RoundedControls.selected
    (RoundedControls.setRadius typed
       (RoundedControls.handleRadiusChange RoundedControls.CustomRadius c))
    = RoundedControls.CustomRadius /\
  RoundedControls.radius
    (RoundedControls.setRadius typed
       (RoundedControls.handleRadiusChange RoundedControls.CustomRadius c))
    = typed.
Proof.
  destruct value; repeat split.
Qed.

(** X12.  In the SVG tool the custom scale is kept apart from the choice:
    with a preset chosen the scale used is the preset, whatever is typed as
    custom value meanwhile; choosing ["custom"] again brings back the custom
    value as it was last typed; and the canvas of the export is sized with
    the scale in use. *)
Theorem custom_scale_survives_presets
    (preset typed : Q) (width height : Z) (c : SvgControls.Controls) :
  SvgControls.effectiveScale
    (SvgControls.setScale (SvgControls.PresetScale preset) c) = preset /\
  SvgControls.effectiveScale
    (SvgControls.setCustomScale typed
       (SvgControls.setScale (SvgControls.PresetScale preset) c)) = preset /\
  SvgControls.effectiveScale
    (SvgControls.setScale SvgControls.CustomScale
       (SvgControls.setCustomScale typed
          (SvgControls.setScale (SvgControls.PresetScale preset) c)))
    = typed /\
  SvgControls.effectiveScale
    (SvgControls.setScale SvgControls.CustomScale
       (SvgControls.setScale (SvgControls.PresetScale preset) c))
    = SvgControls.customScale c /\
  SvgTool.canvasProps width height
    (SvgControls.effectiveScale
       (SvgControls.setScale SvgControls.CustomScale
          (SvgControls.setCustomScale typed c)))
    = SvgTool.scaled width height typed.
Proof.
  repeat split.
Qed.

End ControlFacts.

(* ================================================================== *)
(** * Properties of the object URL of an export                         *)
(* ================================================================== *)

Module ExportUrlFacts.
Import UploadSession ExportUrl SessionFacts.

Lemma fresh_tidy : tidy fresh.
Proof.
  constructor; simpl; try constructor; discriminate.
Qed.

Lemma saved_tidy c : tidy c -> tidy (saved c).
Proof.
  intros [H1 H2 H3 H4]. rewrite Forall_forall in H2.
  unfold saved. simpl. constructor; simpl; try assumption.
  - rewrite Forall_forall. intros u Hu. specialize (H2 u Hu). lia.
  - intros u Hu. destruct (alive c).
    + injection Hu as <-. split; [lia |].
      intro Hin. specialize (H2 _ Hin). lia.
    + destruct (H3 u Hu) as [Ha Hn]. split; [lia | assumption].
  - intros u Hu. destruct (H4 u Hu) as [Ha Hn]. split; [lia | assumption].
Qed.

Lemma rendered_tidy c : tidy c -> tidy (rendered c).
Proof.
  intros [H1 H2 H3 H4]. unfold rendered.
  destruct (alive c); [| now constructor].
  destruct (run_cleanup_cases (registered c) (usedCanvasBlobUrl c) (store c))
    as [Hw | (u0 & Hreg & Hne & Hw)];
    constructor; simpl; rewrite Hw; simpl; try assumption.
  - intros u Hu. injection Hu as Hu. now apply H3.
  - destruct (H4 u0 Hreg) as [_ Hn]. now apply NoDup_snoc.
  - apply Forall_app. split; [assumption |].
    constructor; [now destruct (H4 u0 Hreg) | constructor].
  - intros u Hu. destruct (H3 u Hu) as [Ha Hn]. split; [assumption |].
    intro Hin. apply in_app_or in Hin.
    destruct Hin as [Hin | [<- | []]]; [contradiction | congruence].
  - intros u Hu. injection Hu as Hu. destruct (H3 u Hu) as [Ha Hn].
    split; [assumption |].
    intro Hin. apply in_app_or in Hin.
    destruct Hin as [Hin | [<- | []]]; [contradiction | congruence].
Qed.

Lemma removed_tidy c : tidy c -> tidy (removed c).
Proof.
  intros [H1 H2 H3 H4]. unfold removed.
  destruct (alive c); [| now constructor].
  constructor; simpl; try discriminate;
    destruct (registered c) as [[u0 |] |] eqn:Hreg; simpl; try assumption.
  - destruct (H4 u0 eq_refl) as [_ Hn]. now apply NoDup_snoc.
  - apply Forall_app. split; [assumption |].
    constructor; [now destruct (H4 u0 eq_refl) | constructor].
Qed.

Lemma run_tidy trace c : tidy c -> tidy (run trace c).
Proof.
  revert c. induction trace as [| e trace IH]; intros c H; [exact H |].
  simpl. apply IH. destruct e; simpl.
  - now apply saved_tidy.
  - now apply rendered_tidy.
  - now apply removed_tidy.
Qed.

(** X13.  Whatever the sequence of exports, renders and removal, no
    object URL created for a download is revoked twice, every revoked URL
    is one the export created, and the URL held in [usedCanvasBlobUrl], the
    one of the latest download, is not revoked. *)
Theorem export_url_revoked_at_most_once (trace : list Event) :
  let c := run trace fresh in
  (forall u, count_occ Nat.eq_dec (revoked (store c)) u <= 1) /\
  (forall u, In u (revoked (store c)) -> u < next_url (store c)) /\
  (forall u, usedCanvasBlobUrl c = Some u ->
             u < next_url (store c) /\ ~ In u (revoked (store c))).
Proof.
  intro c. destruct (run_tidy trace fresh_tidy) as [H1 H2 H3 H4].
  fold c in H1, H2, H3, H4.
  split; [now apply NoDup_count_occ |]. split; [| exact H3].
  now rewrite Forall_forall in H2.
Qed.

Lemma one_more_export (k : nat) :
  rendered (saved (after_exports k)) = after_exports (S k).
Proof.
  destruct k as [| k]; [reflexivity |].
  unfold after_exports, saved, rendered, createObjectURL, run_cleanup,
    Url_eqb.
  cbn -[seq Nat.eqb].
  destruct (Nat.eqb_spec k (S k)) as [E | _]; [lia |].
  cbn -[seq]. now rewrite seq_S.
Qed.

Lemma exports_from (n k : nat) :
  run (exports n) (after_exports k) = after_exports (n + k).
Proof.
  revert k. induction n as [| n IH]; intro k; [reflexivity |].
  change (run (exports (S n)) (after_exports k))
    with (run (exports n) (rendered (saved (after_exports k)))).
  rewrite one_more_export, IH. f_equal. lia.
Qed.

(** X14.  When every export is rendered before the next one, nothing is
    left behind: after the first render, [n] exports and the removal of the
    button, the [n] URLs created are exactly the URLs revoked, each once,
    in the order of their creation. *)
Theorem sequential_exports_all_revoked (n : nat) :
  let c := run (Rendered :: exports n ++ [Removed]) fresh in
  next_url (store c) = n /\
  revoked (store c) = seq 0 n /\
  usedCanvasBlobUrl c = None.
Proof.
  intro c. subst c.
  change (run (Rendered :: exports n ++ [Removed]) fresh)
    with (run (exports n ++ [Removed]) (after_exports 0)).
  unfold run. rewrite fold_left_app. fold (run (exports n) (after_exports 0)).
  rewrite exports_from, Nat.add_0_r.
  destruct n as [| n]; [repeat split |].
  cbn -[seq]. rewrite seq_S. repeat split.
Qed.

End ExportUrlFacts.

(* ================================================================== *)
(** * What an export draws                                              *)
(* ================================================================== *)

Module DrawnFacts.
Import Pipeline.

(** X15.  In both tools the canvas is drawn exactly when there is a context
    and the export's image loads, before and whether or not the encoding
    succeeds.  If the image never loads the export does nothing at all and
    reports nothing: the promise returned is fulfilled, [saveImage] is never
    called, nothing is drawn and nothing is downloaded. *)
Theorem export_draws_iff_image_loads
    (numberToString : Q -> string) img radius background width height
    name scale env :
  let rounded :=
    RoundedTool.convertToPng img radius background width height name env in
  let svg :=
    SvgTool.convertToPng numberToString img width height name scale env in
  (drawn rounded
     = RoundedTool.onload img radius background width height <->
   getContext env = true /\ image_loads env = true) /\
  (drawn svg = SvgTool.onload img width height scale <->
   getContext env = true /\ image_loads env = true) /\
  (image_loads env = false ->
   drawn rounded = [] /\ saved rounded = None /\ downloads rounded = [] /\
   drawn svg = [] /\ saved svg = None /\ downloads svg = [] /\
   (getContext env = true ->
    returned rounded = Fulfilled /\ returned svg = Fulfilled)).
Proof.
  intros rounded svg. subst rounded svg.
  unfold RoundedTool.convertToPng, SvgTool.convertToPng, convertToPng.
  destruct (getContext env), (image_loads env); simpl;
    try destruct (saveImage env _) as [p files];
    try destruct (saveImage env _) as [p' files']; simpl;
    repeat split; try discriminate; try reflexivity;
    try (intros [H1 H2]; discriminate);
    try (intro H; discriminate H).
Qed.

End DrawnFacts.

(* ================================================================== *)
(** * The further theorems at work on concrete inputs                   *)
(* ================================================================== *)

Module MoreInstances.
Import UseAsyncMemo UploadSession SessionInvariants.

(** X2 at work: a session with a source file renders; nothing is reported
    any more and a first URL has been allocated. *)
Lemma render_restarts_derivation_witness :
  match run [Render; Resolve 0; Replace Samples.first] initial with
  | Some s =>
      exists s',
        step Render s = Some s' /\
        exposed s' = nothing /\
        next_url (urls s') = 1
  | None => False
  end.
Proof.
  destruct (run [Render; Resolve 0; Replace Samples.first] initial)
    as [s |] eqn:Hr; [| vm_compute in Hr; discriminate Hr].
  assert (Hreach : reachable s) by (exists [Render; Resolve 0;
                                           Replace Samples.first]; exact Hr).
  vm_compute in Hr. injection Hr as Hs.
  assert (Hm : mounted s = true) by (rewrite <- Hs; reflexivity).
  destruct (SessionMore.render_restarts_derivation Hreach Hm)
    as (s' & Hstep & He & _ & _ & Hu).
  exists s'. split; [exact Hstep |]. split; [exact He |].
  rewrite Hu, <- Hs. reflexivity.
Defined.

(** X3 at work: two files are selected at once in a session just
    mounted; the first is decoded and reported, under URL 0. *)
Lemma selected_file_is_reported_witness :
  match run [Render; Resolve 0] initial with
  | Some s =>
      exists s',
        run [Render; Resolve (issued (memo s))]
            (Intake.handleFileUploadEvent
               [Samples.first; Samples.second] s) = Some s' /\
        imageBlob s' = Some Samples.first /\
        exposed s' = derived_of Samples.first 0 (10, 20)%Z
  | None => False
  end.
Proof.
  destruct (run [Render; Resolve 0] initial) as [s |] eqn:Hr;
    [| vm_compute in Hr; discriminate Hr].
  assert (Hreach : reachable s) by (exists [Render; Resolve 0]; exact Hr).
  vm_compute in Hr. injection Hr as Hs.
  assert (Hm : mounted s = true) by (rewrite <- Hs; reflexivity).
  destruct (@SessionMore.selected_file_is_reported
              s Samples.first [Samples.second] (10, 20)%Z
              Hreach Hm eq_refl) as (s' & Hrun & Hb & He).
  exists s'. split; [exact Hrun |]. split; [exact Hb |].
  rewrite He, <- Hs. reflexivity.
Defined.

(** X5 at work: a file that does not decode is given and rendered; nothing
    is reported. *)
Lemma undecodable_files_stay_loading_witness :
  match run [Render; Resolve 0;
             Replace {| file_name := "broken.png";
                        file_type := "image/png";
                        file_natural_size := None |};
             Render] initial with
  | Some s => exposed s = nothing
  | None => False
  end.
Proof.
  destruct (run [Render; Resolve 0;
                 Replace {| file_name := "broken.png";
                            file_type := "image/png";
                            file_natural_size := None |};
                 Render] initial) as [s |] eqn:Hr;
    [| vm_compute in Hr; discriminate Hr].
  apply (SessionMore.undecodable_files_stay_loading _ Hr).
  intros f Hf. unfold supplied in Hf. simpl in Hf.
  destruct Hf as [Hf | [Hf | [Hf | [Hf | []]]]]; try discriminate Hf.
  injection Hf as <-. reflexivity.
Defined.

(** X6 at work: once a decoding has completed both tools show their
    editor. *)
Lemma editors_get_a_url_witness :
  match run [Render; Resolve 0; Replace Samples.first; Render; Resolve 1]
            initial with
  | Some s =>
      RoundedControls.shows_upload_box (exposed s)
      = SvgControls.shows_upload_box (exposed s)
  | None => False
  end.
Proof.
  destruct (run [Render; Resolve 0; Replace Samples.first; Render; Resolve 1]
                initial) as [s |] eqn:Hr;
    [| vm_compute in Hr; discriminate Hr].
  assert (Hreach : reachable s)
    by (exists [Render; Resolve 0; Replace Samples.first; Render; Resolve 1];
        exact Hr).
  now destruct (SessionMore.editors_get_a_url Hreach) as [H _].
Defined.

(** X7 at work. *)
Lemma rounded_name_cut_at_first_dot_witness :
  RoundedTool.download_name "photo.tar.gz" = "photo.png"%string.
Proof.
  destruct (@NameFacts.rounded_name_cut_at_first_dot
              "photo"%string "tar.gz"%string eq_refl) as [H _].
  - discriminate.
  - reflexivity.
  - exact H.
Defined.

(** X8 at work. *)
Lemma svg_name_of_plain_sources_witness :
  SvgTool.download_name (fun _ => "2"%string) "logo.svg" 2%Q
  = "logo-2x.png"%string.
Proof.
  destruct (@NameFacts.svg_name_of_plain_sources
              (fun _ => "2"%string) "logo"%string "png"%string 2%Q
              eq_refl eq_refl eq_refl) as [H _].
  exact H.
Defined.

(** X9 at work: a white export after a transparent one on the same
    canvas. *)
Lemma exports_do_not_interfere_witness :
  Canvas.pixels
    (Canvas.draw Samples.plain_host
       (RoundedTool.onload Samples.picture 2%Q Canvas.white 4 4)
       (RoundedTool.exported Samples.plain_host Samples.picture 1%Q
          Canvas.transparent 4 4 (fun _ _ => Canvas.css_color Canvas.black)))
    0%Z 0%Z
  = Canvas.pixels
      (RoundedTool.exported Samples.plain_host Samples.picture 2%Q
         Canvas.white 4 4 (fun _ _ => Canvas.transparent_black))
      0%Z 0%Z.
Proof.
  destruct (@DrawingMore.exports_do_not_interfere
              Samples.plain_host Samples.picture Samples.picture
              1%Q 2%Q Canvas.transparent Canvas.white 4%Z 4%Z
              (fun _ _ => Canvas.css_color Canvas.black)
              (fun _ _ => Canvas.transparent_black) 0%Z 0%Z)
    as (_ & _ & _ & H).
  - split; intros s d Ha; simpl; rewrite Ha; reflexivity.
  - reflexivity.
  - exact H.
Defined.

(** X10 at work: on a host that draws every image opaque, the top left
    pixel of a 4 x 4 image exported at scale 2 is opaque. *)
Lemma svg_keeps_transparency_witness :
  Canvas.alpha
    (Canvas.pixels
       (SvgTool.exported Samples.plain_host Samples.picture 4 4 2%Q
          (fun _ _ => Canvas.css_color Canvas.black))
       0%Z 0%Z) = 255%Z.
Proof.
  destruct (@DrawingMore.svg_keeps_transparency
              Samples.plain_host Samples.picture 4%Z 4%Z 2%Q
              (fun _ _ => Canvas.css_color Canvas.black) 0%Z 0%Z)
    as (_ & _ & H).
  - split; intros s d Ha; simpl; rewrite Ha; reflexivity.
  - reflexivity.
  - rewrite H; reflexivity.
Defined.

End MoreInstances.
